(** * xmake: a shallow embedding of scripts/build/xmake.py

    The build orchestrator is embedded function by function: pathlib's
    pure paths as a record, Python sets as [gset], the insertion-ordered
    [dict] as an association list, printing and subprocess calls as a
    log of events threaded through an error monad, and the two [while]
    loops as fuelled iterations that report the state they stopped in. *)

From Stdlib Require Import ZArith Ascii String.
From stdpp Require Import base decidable option list strings countable gmap sets relations.

#[local] Set Warnings "-clear-no-such-hyp".

(** ** Exceptions and results *)

(** The Python exceptions the script can raise on its own data: a path
    that is not below the expected root or has no name ([ValueError]),
    and a rule file that cannot be opened ([FileNotFoundError]).  The
    script defines no exception class of its own and contains no
    [raise], [try] or [sys.exit]. *)
Inductive exn := ValueError | FileNotFoundError.

Inductive result (A : Type) :=
  | Ok (a : A)
  | Raise (e : exn).
Arguments Ok {A} a.
Arguments Raise {A} e.

#[global] Instance exn_eq_dec : EqDecision exn.
Proof. solve_decision. Defined.

(** What a [while] loop has done after a bounded number of iterations:
    it is still [Running] (with its current state), it has [Returned],
    or an exception has [Raised] out of it. *)
Inductive outcome (A : Type) :=
  | Running (a : A)
  | Returned (a : A)
  | Raised (e : exn).
Arguments Running {A} a.
Arguments Returned {A} a.
Arguments Raised {A} e.

(** ** pathlib.PurePosixPath *)

Module Path.

(** The root of a POSIX pure path: none, [/], or the two-slash root
    that POSIX keeps apart and that the build tool uses for prefixes. *)
Inductive anchor := NoRoot | Slash | SlashSlash.

(** A pure path: its root and the components that follow it.  The
    drive is always empty on POSIX and is left out. *)
Record PurePath := mkPath { root : anchor; names : list string }.

#[global] Instance anchor_eq_dec : EqDecision anchor.
Proof. solve_decision. Defined.

#[global] Instance PurePath_eq_dec : EqDecision PurePath.
Proof. solve_decision. Defined.

Definition anchor_code (a : anchor) : nat :=
  match a with NoRoot => 0 | Slash => 1 | SlashSlash => 2 end.

Definition anchor_of_code (n : nat) : anchor :=
  match n with 0 => NoRoot | 1 => Slash | _ => SlashSlash end.

#[global] Instance PurePath_countable : Countable PurePath :=
  inj_countable'
    (λ p, (anchor_code (root p), names p))
    (λ c, mkPath (anchor_of_code c.1) c.2)
    (λ p, match p with mkPath r _ => match r with NoRoot | Slash | SlashSlash => eq_refl end end).

(** [s.split('/')] *)
Fixpoint split_sep (s : string) : list string :=
  match s with
  | EmptyString => [EmptyString]
  | String c s' =>
      if Ascii.eqb c "/"%char then EmptyString :: split_sep s'
      else match split_sep s' with
           | [] => [String c EmptyString]
           | w :: ws => String c w :: ws
           end
  end.

(** Number of leading separators, [len(part) - len(part.lstrip('/'))]. *)
Fixpoint leading_seps (s : string) : nat :=
  match s with
  | String c s' => if Ascii.eqb c "/"%char then S (leading_seps s') else 0
  | EmptyString => 0
  end.

(** [splitroot]: exactly two leading slashes give the root [//], any
    other positive number gives [/]. *)
Definition splitroot (s : string) : anchor :=
  match leading_seps s with
  | 0 => NoRoot
  | 2 => SlashSlash
  | _ => Slash
  end.

(** A component survives parsing when it is neither empty nor [.]. *)
Definition kept (x : string) : bool :=
  negb (String.eqb x "") && negb (String.eqb x ".").

(** [pathlib.PurePath(s)] *)
Definition of_str (s : string) : PurePath :=
  mkPath (splitroot s) (filter (λ x, Is_true (kept x)) (split_sep s)).

Definition anchor_str (a : anchor) : string :=
  match a with NoRoot => "" | Slash => "/" | SlashSlash => "//" end.

(** [str(p)] *)
Definition str (p : PurePath) : string :=
  match root p, names p with
  | NoRoot, [] => "."
  | r, ns => anchor_str r +:+ String.concat "/" ns
  end.

(** [p.is_absolute()] *)
Definition is_absolute (p : PurePath) : bool :=
  match root p with NoRoot => false | _ => true end.

(** [p / q]: an absolute right operand replaces the left one. *)
Definition join (p q : PurePath) : PurePath :=
  if is_absolute q then q else mkPath (root p) (names p ++ names q).

(** [p.parent]: a path without components is its own parent. *)
Definition parent (p : PurePath) : PurePath :=
  mkPath (root p) (removelast (names p)).

(** [p.name]: the last component, empty when there is none. *)
Definition name (p : PurePath) : string := List.last (names p) "".

(** [name.rfind('.')] *)
Fixpoint rfind_dot (s : string) : option nat :=
  match s with
  | EmptyString => None
  | String c s' =>
      match rfind_dot s' with
      | Some i => Some (S i)
      | None => if Ascii.eqb c "."%char then Some 0 else None
      end
  end.

(** [p.suffix]: from the last dot of the name on, unless that dot is
    the first or the last character. *)
Definition suffix (p : PurePath) : string :=
  let nm := name p in
  match rfind_dot nm with
  | Some i =>
      if bool_decide (0 < i ∧ i < String.length nm - 1)
      then substring i (String.length nm - i) nm
      else ""
  | None => ""
  end.

(** [p.with_suffix(sfx)], for the two well-formed suffixes the script
    passes ([.o] and [.a]): a path with an empty name is refused. *)
Definition with_suffix (p : PurePath) (sfx : string) : result PurePath :=
  let nm := name p in
  if String.eqb nm "" then Raise ValueError
  else
    let old := suffix p in
    let nm' := if String.eqb old "" then nm +:+ sfx
               else substring 0 (String.length nm - String.length old) nm +:+ sfx in
    Ok (mkPath (root p) (removelast (names p) ++ [nm'])).

(** [p.relative_to(other)]: [other] must have the root of [p] and its
    components must start those of [p]. *)
Definition relative_to (p other : PurePath) : result PurePath :=
  if bool_decide (root p = root other
                  ∧ take (length (names other)) (names p) = names other)
  then Ok (mkPath NoRoot (drop (length (names other)) (names p)))
  else Raise ValueError.

End Path.

Export Path.
Infix "</>" := join (at level 40, left associativity).

(** ** Module constants *)

Definition FILENAME : string := "xmake.yml".
Definition CONFIG : string := ".git".
Definition OUTDIR : string := ".out".

(** ** Locating the repository *)

Section Walk.

(** [pathlib.Path.cwd()] and [Path.exists] of the file system the
    script runs in. *)
Variable cwd : PurePath.
Variable path_exists : PurePath → bool.

(** The loop of [repo_abs_path], started at [d] and run for at most
    [fuel] tests of its condition. *)
Fixpoint repo_walk (fuel : nat) (d : PurePath) : outcome PurePath :=
  match fuel with
  | 0 => Running d
  | S n =>
      if path_exists (d </> of_str CONFIG) then Returned d
      else repo_walk n (parent d)
  end.

Definition repo_abs_path (fuel : nat) : outcome PurePath :=
  repo_walk fuel cwd.

End Walk.

(** ** Prefixes and paths *)

(** [prefix_to_rel_path] *)
Definition prefix_to_rel_path (prefix : PurePath) : result PurePath :=
  relative_to prefix (of_str "//").

(** [rel_path_to_prefix] *)
Definition rel_path_to_prefix (rel_path : PurePath) : PurePath :=
  of_str "//" </> rel_path.

(** ** Effects *)

(** What the script does to the outside world, in the order it does
    it: the three kinds of line it prints, the output directory it
    creates, and the subprocess it runs, recorded with the exit status
    the subprocess came back with. *)
Inductive event :=
  | Loading (prefix : PurePath)
  | Doing (target : PurePath)
  | Echo (line : string)
  | Mkdir (dir : PurePath)
  | Spawn (command : list string) (status : Z).

#[global] Instance event_eq_dec : EqDecision event.
Proof. solve_decision. Defined.

(** A computation reads the log so far and yields a value or an
    exception together with the extended log. *)
Definition M (A : Type) : Type := list event → result A * list event.

Definition ret {A} (a : A) : M A := λ log, (Ok a, log).

Definition raise {A} (e : exn) : M A := λ log, (Raise e, log).

Definition bind {A B} (m : M A) (k : A → M B) : M B :=
  λ log, match m log with
         | (Ok a, log') => k a log'
         | (Raise e, log') => (Raise e, log')
         end.

Definition lift {A} (r : result A) : M A :=
  match r with Ok a => ret a | Raise e => raise e end.

Definition emit (e : event) : M unit := λ log, (Ok tt, log ++ [e]).

#[global] Instance M_ret : MRet M := @ret.
#[global] Instance M_bind : MBind M := λ A B k m, bind m k.

(** Sequencing of pure fallible steps. *)
Definition and_then {A B} (r : result A) (k : A → result B) : result B :=
  match r with Ok a => k a | Raise e => Raise e end.

#[global] Instance result_ret : MRet result := @Ok.
#[global] Instance result_bind : MBind result := λ A B k r, and_then r k.

(** ** Rule records and the ordered dictionary *)

(** One target of a rule file as [yaml.safe_load] returns it: every key
    may be absent. *)
Record RawProps := mkRaw {
  yaml_srcs : option (list string);
  yaml_hdrs : option (list string);
  yaml_main : option bool;
  yaml_deps : option (list string) }.

(** The same record once [load_prefix] has replaced ['deps'] by the set
    of canonical dependency paths. *)
Record Props := mkProps {
  srcs : option (list string);
  hdrs : option (list string);
  main : option bool;
  deps : gset PurePath }.

(** A Python [dict] keyed by paths, as the list of its items in
    insertion order. *)
Definition dict (V : Type) : Type := list (PurePath * V).

(** [d[k] = v]: an existing key keeps its place, a new one goes last. *)
Fixpoint dict_set {V} (k : PurePath) (v : V) (d : dict V) : dict V :=
  match d with
  | [] => [(k, v)]
  | (k', v') :: d' =>
      if decide (k' = k) then (k, v) :: d' else (k', v') :: dict_set k v d'
  end.

(** [d.update(other)] *)
Definition dict_update {V} (d other : dict V) : dict V :=
  foldl (λ acc kv, dict_set kv.1 kv.2 acc) d other.

(** The keys of a dictionary as a set. *)
Definition keys {V} (d : dict V) : gset PurePath := list_to_set d.*1.

(** ** The build, for a located repository *)

Section Build.

(** The directory [repo_abs_path()] returns, the directory the script
    is started in, the parsed content of each rule file (absent when
    the file cannot be opened), and the exit status of each
    subprocess, which may depend on everything that happened before. *)
Variable repo : PurePath.
Variable cwd : PurePath.
Variable rule_files : PurePath → option (list (string * RawProps)).
Variable toolchain : list event → list string → Z.

(** [curr_rel_path] *)
Definition curr_rel_path : result PurePath := relative_to cwd repo.

(** [prefix_to_abs_path] *)
Definition prefix_to_abs_path (prefix : PurePath) : result PurePath :=
  and_then (prefix_to_rel_path prefix) (λ rel, Ok (repo </> rel)).

(** [curr_prefix] *)
Definition curr_prefix : result PurePath :=
  and_then curr_rel_path (λ rel, Ok (rel_path_to_prefix rel)).

(** [prefix_to_abs_out_name] *)
Definition prefix_to_abs_out_name (prefix : PurePath) : result PurePath :=
  and_then (prefix_to_abs_path prefix) (λ abs_path,
    let name := name abs_path in
    let dep_dir := parent abs_path in
    Ok (dep_dir </> of_str OUTDIR </> of_str name)).

(** [subprocess.run(command)] without [check=True]: the call returns
    the exit status of the subprocess, whatever it is. *)
Definition subprocess_run (command : list string) : M Z :=
  λ log, let status := toolchain log command in
         (Ok status, log ++ [Spawn command status]).

(** [cmd_run]: the command line is echoed, the subprocess is run, and
    what the call returns is dropped. *)
Definition cmd_run (command : list string) : M unit :=
  emit (Echo (String.concat " " command));;
  subprocess_run command;;
  mret tt.

(** *** do_cpp *)

Definition CC : string := "clang++".
Definition AR : string := "ar".
Definition OPT : string := "-O3".
Definition STD : string := "-std=c++20".
Definition PTHREAD : string := "-pthread".
Definition INCLUDE : string := "-I" +:+ str repo.

(** The loop over [srcs]: one compiler run per source, the object
    path collected. *)
Fixpoint compile_srcs (rule_dir target_out : PurePath) (sources : list string)
    (objects : list string) : M (list string) :=
  match sources with
  | [] => mret objects
  | src :: rest =>
      let src_path := rule_dir </> of_str src in
      dot_o ← lift (with_suffix (target_out </> of_str src) ".o");
      cmd_run [CC; OPT; STD; INCLUDE; "-c"; str src_path; "-o"; str dot_o];;
      compile_srcs rule_dir target_out rest (objects ++ [str dot_o])
  end.

(** The loop over [deps]: the archive of each dependency collected. *)
Fixpoint dep_archives (dependencies : list PurePath) (objects : list string)
    : result (list string) :=
  match dependencies with
  | [] => Ok objects
  | dep :: rest =>
      and_then (prefix_to_abs_out_name dep) (λ out,
      and_then (with_suffix out ".a") (λ dot_a,
      dep_archives rest (objects ++ [str dot_a])))
  end.

(** [do_cpp].  The defaults it stores into [props] for absent keys are
    read by nothing but itself, so they are only bound locally. *)
Definition do_cpp (name : PurePath) (props : Props) : M unit :=
  let main := default false (main props) in
  let srcs := default [] (srcs props) in
  abs_path ← lift (prefix_to_abs_path name);
  let rule_dir := parent abs_path in
  let target_out := rule_dir </> of_str OUTDIR in
  emit (Mkdir target_out);;
  objects ← compile_srcs rule_dir target_out srcs [];
  objects ← lift (dep_archives (elements (deps props)) objects);
  out_name ← lift (prefix_to_abs_out_name name);
  if main then cmd_run ([CC; PTHREAD; "-o"; str out_name] ++ objects)
  else
    dot_a ← lift (with_suffix out_name ".a");
    cmd_run ([AR; "rcsuUPT"; str dot_a] ++ objects).

(** *** load_prefix *)

(** One dependency reference made canonical. *)
Definition canonical_dep (prefix dep_path : PurePath) : PurePath :=
  if is_absolute dep_path then dep_path else prefix </> dep_path.

(** [set(canonical_deps)] for the ['deps'] list of one target. *)
Definition canonical_deps (prefix : PurePath) (dependencies : list string)
    : gset PurePath :=
  list_to_set (canonical_dep prefix <$> (of_str <$> dependencies)).

(** The body of the loop over the rules of one file. *)
Definition load_rule (prefix : PurePath) (prop_dict : dict Props)
    (rule : string * RawProps) : dict Props :=
  let '(name, props) := rule in
  let canonical_name := prefix </> of_str name in
  let dependencies :=
    match yaml_deps props with Some l => l | None => [] end in
  dict_set canonical_name
    (mkProps (yaml_srcs props) (yaml_hdrs props) (yaml_main props)
             (canonical_deps prefix dependencies))
    prop_dict.

(** [load_prefix] *)
Definition load_prefix (prefix : PurePath) : M (dict Props) :=
  emit (Loading prefix);;
  rel_path ← lift (prefix_to_rel_path prefix);
  let abs_path := repo </> rel_path in
  match rule_files (abs_path </> of_str FILENAME) with
  | None => raise FileNotFoundError
  | Some rules => mret (foldl (load_rule prefix) [] rules)
  end.

(** *** Discovering the graph *)

(** The module-level state of the discovery loop. *)
Record discovery := mkDiscovery {
  prop_dict : dict Props;
  loaded_prefixes : gset PurePath;
  targets : gset PurePath }.

(** The loop over the dependencies of one target: the rule file of
    every directory not loaded yet is loaded into [new_dict]. *)
Fixpoint scan_deps (dependencies : list PurePath) (new_dict : dict Props)
    (loaded : gset PurePath) : M (dict Props * gset PurePath) :=
  match dependencies with
  | [] => mret (new_dict, loaded)
  | dep :: rest =>
      let prefix := parent dep in
      if decide (prefix ∉ loaded) then
        found ← load_prefix prefix;
        scan_deps rest (dict_update new_dict found) ({[prefix]} ∪ loaded)
      else scan_deps rest new_dict loaded
  end.

(** The loop over the items of [prop_dict] within one pass. *)
Fixpoint scan_items (items : dict Props) (new_dict : dict Props)
    (loaded seen : gset PurePath)
    : M (dict Props * gset PurePath * gset PurePath) :=
  match items with
  | [] => mret (new_dict, loaded, seen)
  | (target, props) :: rest =>
      '(new_dict', loaded') ← scan_deps (elements (deps props)) new_dict loaded;
      scan_items rest new_dict' loaded' ({[target]} ∪ seen)
  end.

(** The discovery loop [while size != len(prop_dict)], run for at
    most [fuel] tests of its condition. *)
Fixpoint discover (fuel : nat) (size : nat) (st : discovery)
    (log : list event) : outcome discovery * list event :=
  match fuel with
  | 0 => (Running st, log)
  | S n =>
      if decide (size ≠ length (prop_dict st)) then
        let size' := length (prop_dict st) in
        match scan_items (prop_dict st) [] (loaded_prefixes st) (targets st) log with
        | (Ok (new_dict, loaded, seen), log') =>
            discover n size'
              (mkDiscovery (dict_update (prop_dict st) new_dict) loaded seen) log'
        | (Raise e, log') => (Raised e, log')
        end
      else (Returned st, log)
  end.

(** The statements before the discovery loop. *)
Definition start : M discovery :=
  here ← lift curr_prefix;
  found ← load_prefix here;
  here' ← lift curr_prefix;
  mret (mkDiscovery found {[here']} ∅).

(** *** Scheduling *)

(** The condition under which the scheduler runs a target. *)
Definition ready (done_targets : gset PurePath) (target : PurePath)
    (props : Props) : bool :=
  bool_decide (set_Forall (λ dep, dep ∈ done_targets) (deps props))
  && bool_decide (target ∉ done_targets).

(** One pass of the scheduler over the items of [prop_dict].  Inside
    the loop [prop_dict[target]] is the very record [props] the
    iteration has bound. *)
Fixpoint sched_pass (items : dict Props) (done_targets : gset PurePath)
    : M (gset PurePath) :=
  match items with
  | [] => mret done_targets
  | (target, props) :: rest =>
      if ready done_targets target props then
        emit (Doing target);;
        do_cpp target props;;
        sched_pass rest ({[target]} ∪ done_targets)
      else sched_pass rest done_targets
  end.

(** The scheduling loop [while targets != done_targets], run for at
    most [fuel] tests of its condition. *)
Fixpoint schedule (fuel : nat) (graph : dict Props) (universe : gset PurePath)
    (done_targets : gset PurePath) (log : list event)
    : outcome (gset PurePath) * list event :=
  match fuel with
  | 0 => (Running done_targets, log)
  | S n =>
      if decide (universe ≠ done_targets) then
        match sched_pass graph done_targets log with
        | (Ok done_targets', log') => schedule n graph universe done_targets' log'
        | (Raise e, log') => (Raised e, log')
        end
      else (Returned done_targets, log)
  end.

(** The module body from the first load to the end of the scheduling
    loop, each of the two loops bounded by [fuel]. *)
Definition build (fuel : nat) : outcome (gset PurePath) * list event :=
  match start [] with
  | (Ok st, log) =>
      match discover fuel 0 st log with
      | (Returned st', log') =>
          schedule fuel (prop_dict st') (targets st') ∅ log'
      | (Running _, log') => (Running ∅, log')
      | (Raised e, log') => (Raised e, log')
      end
  | (Raise e, log) => (Raised e, log)
  end.

End Build.

(** The whole script: the repository is located from the working
    directory, then the graph is discovered and scheduled. *)
Definition xmake (cwd : PurePath) (path_exists : PurePath → bool)
    (rule_files : PurePath → option (list (string * RawProps)))
    (toolchain : list event → list string → Z) (fuel : nat)
    : outcome (gset PurePath) * list event :=
  match repo_abs_path cwd path_exists fuel with
  | Returned repo => build repo cwd rule_files toolchain fuel
  | Running _ => (Running ∅, [])
  | Raised e => (Raised e, [])
  end.

(** ** Vocabulary of the properties *)

(** A prefix is a path under the virtual root [//]. *)
Definition valid_prefix (p : PurePath) : bool :=
  bool_decide (root p = SlashSlash).

(** The [k]-th directory above [d]. *)
Definition ancestor (k : nat) (d : PurePath) : PurePath :=
  Nat.iter k parent d.

(** A rule whose ['deps'] key, when absent, is written out as the empty
    list. *)
Definition with_explicit_deps (rule : string * RawProps) : string * RawProps :=
  let '(name, props) := rule in
  (name, mkRaw (yaml_srcs props) (yaml_hdrs props) (yaml_main props)
               (Some (default [] (yaml_deps props)))).

(** The directory [d] holds the repository marker. *)
Definition has_marker (path_exists : PurePath → bool) (d : PurePath) : bool :=
  path_exists (d </> of_str CONFIG).

(** A loop hangs when it is still running after any number of tests of
    its condition. *)
Definition hangs {A} (run : nat → outcome A) : Prop :=
  ∀ fuel, ∃ a, run fuel = Running a.

(** [d.get(k)] *)
Fixpoint dict_get {V} (k : PurePath) (d : dict V) : option V :=
  match d with
  | [] => None
  | (k', v) :: d' => if decide (k' = k) then Some v else dict_get k d'
  end.

(** The targets the scheduler has announced, in the order of the log. *)
Definition executed (log : list event) : list PurePath :=
  omap (λ e, match e with Doing target => Some target | _ => None end) log.

(** A computation is silent when all it does to the log is to add
    events that announce no target. *)
Definition silent {A} (m : M A) : Prop :=
  ∀ log, ∃ ext, (m log).2 = log ++ ext ∧ executed ext = [].

(** An event with the exit status of its subprocess blotted out. *)
Definition forget_status (e : event) : event :=
  match e with
  | Spawn command _ => Spawn command 0
  | _ => e
  end.

(** Two logs that differ at most in exit statuses. *)
Definition same_but_status (l1 l2 : list event) : Prop :=
  forget_status <$> l1 = forget_status <$> l2.

(** Two computations are alike when, on logs that differ at most in
    exit statuses, they end the same way with logs that again differ at
    most in exit statuses. *)
Definition alike {A} (m1 m2 : M A) : Prop :=
  ∀ l1 l2, same_but_status l1 l2 →
    (m1 l1).1 = (m2 l2).1 ∧ same_but_status (m1 l1).2 (m2 l2).2.

(** The object file [do_cpp] compiles the source [src] of the target
    [name] into, and the archive it expects of the dependency [dep]. *)
Definition object_of (repo name : PurePath) (src : string) (o : string) : Prop :=
  ∃ abs_path dot_o,
    prefix_to_abs_path repo name = Ok abs_path
    ∧ with_suffix (parent abs_path </> of_str OUTDIR </> of_str src) ".o" = Ok dot_o
    ∧ o = str dot_o.

Definition archive_of (repo dep : PurePath) (a : string) : Prop :=
  ∃ out dot_a,
    prefix_to_abs_out_name repo dep = Ok out
    ∧ with_suffix out ".a" = Ok dot_a
    ∧ a = str dot_a.

(** [target] depends on [dep] in the graph. *)
Definition depends (graph : dict Props) (target dep : PurePath) : Prop :=
  ∃ props, (target, props) ∈ graph ∧ dep ∈ deps props.

(** No target reaches itself along dependencies. *)
Definition acyclic (graph : dict Props) : Prop :=
  ∀ target, ¬ tc (depends graph) target target.

(** Every referenced dependency is a target of the graph. *)
Definition deps_defined (graph : dict Props) : Prop :=
  ∀ target dep, depends graph target dep → dep ∈ keys graph.

(** The toolchain driver raises nothing on the targets of the graph. *)
Definition driver_completes (repo : PurePath)
    (toolchain : list event → list string → Z) (graph : dict Props) : Prop :=
  ∀ target props log,
    (target, props) ∈ graph → (do_cpp repo toolchain target props log).1 = Ok tt.

(** The targets of [order] are run one after the other from the
    completion set [done_targets]: each is a target of the graph that is
    not complete yet and whose dependencies all are, and it is complete
    for the targets after it. *)
Fixpoint run_in_turn (graph : dict Props) (done_targets : gset PurePath)
    (order : list PurePath) : Prop :=
  match order with
  | [] => True
  | target :: rest =>
      (∃ props, (target, props) ∈ graph ∧ deps props ⊆ done_targets)
      ∧ (target ∉ done_targets)
      ∧ run_in_turn graph ({[target]} ∪ done_targets) rest
  end.

(** A string without a separator in it. *)
Fixpoint no_sep (x : string) : bool :=
  match x with
  | EmptyString => true
  | String c x' => negb (Ascii.eqb c "/"%char) && no_sep x'
  end.

(** A path as pathlib builds them: its components are neither empty nor
    [.] and hold no separator. *)
Definition normal (p : PurePath) : bool :=
  forallb (λ x, kept x && no_sep x) (names p).

(** A source reference that is not just a root. *)
Definition proper_source (src : string) : bool :=
  negb (is_absolute (of_str src) && bool_decide (names (of_str src) = [])).

(** A target [do_cpp] raises nothing on: the target and its dependencies
    are prefixes, the paths are normal, the sources are proper. *)
Definition buildable (repo name : PurePath) (props : Props) : bool :=
  normal repo && valid_prefix name && normal name
  && forallb proper_source (default [] (srcs props))
  && forallb (λ dep, valid_prefix dep && normal dep) (elements (deps props)).

(** The file system of the examples: a repository in [/home/dev/repo]
    with an executable in [app] that depends on a library in [lib], two
    targets in [cyc] that depend on each other, and a target in [x]
    that depends on a target the rule file of [y] does not define. *)
Definition sample_marker (p : PurePath) : bool :=
  bool_decide (p = of_str "/home/dev/repo/.git").

Definition sample_rules (p : PurePath) : option (list (string * RawProps)) :=
  if decide (p = of_str "/home/dev/repo/app/xmake.yml") then
    Some [("main", mkRaw (Some ["main.cc"]) None (Some true) (Some ["//lib/core"]))]
  else if decide (p = of_str "/home/dev/repo/lib/xmake.yml") then
    Some [("core", mkRaw (Some ["a.cc"]) None (Some false) (Some []))]
  else if decide (p = of_str "/home/dev/repo/cyc/xmake.yml") then
    Some [("a", mkRaw None None None (Some ["b"]));
          ("b", mkRaw None None None (Some ["a"]))]
  else if decide (p = of_str "/home/dev/repo/x/xmake.yml") then
    Some [("x", mkRaw (Some ["x.cc"]) None None (Some ["//y/missing"]))]
  else if decide (p = of_str "/home/dev/repo/y/xmake.yml") then
    Some [("other", mkRaw (Some ["o.cc"]) None None (Some []))]
  else None.

(** A toolchain all of whose subprocesses succeed, and one all of whose
    subprocesses fail. *)
Definition toolchain_ok (log : list event) (command : list string) : Z := 0.
Definition toolchain_failing (log : list event) (command : list string) : Z := 1.

#[global] Instance Props_eq_dec : EqDecision Props.
Proof. solve_decision. Defined.

(** The graphs the script discovers in the directories [cyc] and [x] of
    the sample repository. *)
Definition sample_cyc_graph : dict Props :=
  [(of_str "//cyc/a", mkProps None None None {[of_str "//cyc/b"]});
   (of_str "//cyc/b", mkProps None None None {[of_str "//cyc/a"]})].

Definition sample_x_graph : dict Props :=
  [(of_str "//x/x", mkProps (Some ["x.cc"]) None None {[of_str "//y/missing"]});
   (of_str "//y/other", mkProps (Some ["o.cc"]) None None ∅)].

(** The graph the script discovers in the directory [app] of the sample
    repository. *)
Definition sample_app_graph : dict Props :=
  [(of_str "//app/main",
    mkProps (Some ["main.cc"]) None (Some true) {[of_str "//lib/core"]});
   (of_str "//lib/core", mkProps (Some ["a.cc"]) None (Some false) ∅)].

(** The directories whose rule file has been loaded, in the order of
    the log. *)
Definition loadings (log : list event) : list PurePath :=
  omap (λ e, match e with Loading prefix => Some prefix | _ => None end) log.

(** A computation that raises nothing but [ValueError]. *)
Definition only_value_error {A} (m : M A) : Prop :=
  ∀ log e, (m log).1 = Raise e → e = ValueError.

(** A graph whose only target lists the bare root [/] among its
    sources. *)
Definition sample_root_source_graph : dict Props :=
  [(of_str "//lib/core", mkProps (Some ["ok.cc"; "/"]) None None ∅)].

(** A rule file for the directory [app] with one qualified and one
    bare dependency reference. *)
Definition sample_two_deps_rules (p : PurePath)
    : option (list (string * RawProps)) :=
  Some [("main", mkRaw (Some ["main.cc"]) None (Some true)
                   (Some ["//lib/core"; "util"]))].

(** A log that holds nothing but announcements of loaded directories. *)
Definition only_loading (log : list event) : Prop :=
  Forall (λ e, ∃ prefix, e = Loading prefix) log.

(** Rule files in which the target of [app] depends on a target of the
    directory [gone], which has no rule file. *)
Definition sample_missing_file_rules (p : PurePath)
    : option (list (string * RawProps)) :=
  if decide (p = of_str "/home/dev/repo/app/xmake.yml") then
    Some [("main", mkRaw (Some ["main.cc"]) None (Some true) (Some ["//gone/x"]))]
  else None.

(** ** Paths: round trip and canonical dependencies *)

Lemma double_slash : of_str "//" = mkPath SlashSlash [].
Proof. reflexivity. Qed.

Lemma valid_prefix_root p : valid_prefix p = true ↔ root p = SlashSlash.
Proof. unfold valid_prefix. rewrite bool_decide_eq_true. done. Qed.

Lemma prefix_to_rel_path_valid p :
  valid_prefix p = true → prefix_to_rel_path p = Ok (mkPath NoRoot (names p)).
Proof.
  intros Hp%valid_prefix_root. unfold prefix_to_rel_path, relative_to.
  rewrite double_slash. cbn. rewrite bool_decide_eq_true_2; [|done].
  by rewrite drop_0.
Qed.

Lemma prefix_to_rel_path_invalid p :
  valid_prefix p = false → prefix_to_rel_path p = Raise ValueError.
Proof.
  intros Hp. unfold prefix_to_rel_path, relative_to.
  rewrite double_slash. cbn. rewrite bool_decide_eq_false_2; [done|].
  intros [Hr _]. apply valid_prefix_root in Hr. congruence.
Qed.

Lemma rel_path_to_prefix_relative r :
  is_absolute r = false → rel_path_to_prefix r = mkPath SlashSlash (names r).
Proof.
  intros Hr. unfold rel_path_to_prefix, join. rewrite Hr, double_slash. done.
Qed.

Lemma join_relative p q :
  is_absolute q = false → p </> q = mkPath (root p) (names p ++ names q).
Proof. intros Hq. unfold join. by rewrite Hq. Qed.

Lemma relative_to_join repo rel :
  is_absolute rel = false → relative_to (repo </> rel) repo = Ok rel.
Proof.
  intros Hrel. rewrite join_relative by done. unfold relative_to. cbn.
  rewrite take_app_length, drop_app_length.
  rewrite bool_decide_eq_true_2 by done.
  destruct rel as [[] ns]; cbn in *; done.
Qed.

(** The other direction: a path below the repository goes to its
    prefix and comes back. *)
Lemma path_prefix_round_trip repo abs_path rel :
  relative_to abs_path repo = Ok rel →
  valid_prefix (rel_path_to_prefix rel) = true
  ∧ prefix_to_abs_path repo (rel_path_to_prefix rel) = Ok abs_path.
Proof.
  unfold relative_to. case_bool_decide as H; [|done].
  destruct H as [Hroot Htake]. intros [= <-].
  rewrite rel_path_to_prefix_relative by done. split; [done|].
  unfold prefix_to_abs_path. rewrite prefix_to_rel_path_valid by done.
  cbn [and_then names]. rewrite join_relative by done. f_equal.
  destruct abs_path as [r ns], repo as [r' ns']; cbn in *. subst r'.
  f_equal. rewrite <- Htake at 1. apply take_drop.
Qed.

(** C8. For every valid prefix, and whatever directory the repository
    sits in, turning the prefix into a relative path and back gives the
    prefix again, and so does turning it into an absolute path and
    reading that path back as the prefix of the working directory. *)
Theorem prefix_path_round_trip (repo p : PurePath) :
  valid_prefix p = true →
  (∃ rel, prefix_to_rel_path p = Ok rel
          ∧ is_absolute rel = false
          ∧ rel_path_to_prefix rel = p)
  ∧ (∃ abs_path, prefix_to_abs_path repo p = Ok abs_path
                 ∧ curr_prefix repo abs_path = Ok p).
Proof.
  intros Hp. pose proof (prefix_to_rel_path_valid p Hp) as Hrel.
  assert (rel_path_to_prefix (mkPath NoRoot (names p)) = p) as Hback.
  { rewrite rel_path_to_prefix_relative by done. cbn.
    apply valid_prefix_root in Hp. destruct p; cbn in *; by subst. }
  split.
  - eexists. split; [exact Hrel|]. split; [done|exact Hback].
  - unfold prefix_to_abs_path, curr_prefix, curr_rel_path. rewrite Hrel.
    cbn [and_then]. eexists. split; [done|].
    rewrite relative_to_join by done. cbn [and_then]. by rewrite Hback.
Qed.

Lemma prefix_path_round_trip_witness :
  valid_prefix (of_str "//lib/core") = true
  ∧ ∃ abs_path,
      prefix_to_abs_path (of_str "/home/dev/repo") (of_str "//lib/core") = Ok abs_path
      ∧ curr_prefix (of_str "/home/dev/repo") abs_path = Ok (of_str "//lib/core").
Proof.
  split; [reflexivity|].
  apply (prefix_path_round_trip (of_str "/home/dev/repo") (of_str "//lib/core")).
  reflexivity.
Defined.

Lemma join_absolute p q : is_absolute p = true → is_absolute (p </> q) = true.
Proof.
  intros Hp. unfold join. destruct (is_absolute q) eqn:Hq; [done|].
  exact Hp.
Qed.

Lemma canonical_dep_absolute prefix dep_path :
  is_absolute prefix = true → is_absolute (canonical_dep prefix dep_path) = true.
Proof.
  intros Hp. unfold canonical_dep.
  destruct (is_absolute dep_path) eqn:Hd; [done|]. by apply join_absolute.
Qed.

(** What [canonical_dep] does to a parsed reference: one that carries a
    root is kept, a bare one is put under the prefix, and the result is
    left unchanged by a second canonicalization when the prefix carries
    a root. *)
Lemma canonical_dep_cases prefix other dep_path :
  (is_absolute dep_path = true → canonical_dep prefix dep_path = dep_path)
  ∧ (is_absolute dep_path = false →
     canonical_dep prefix dep_path
     = mkPath (root prefix) (names prefix ++ names dep_path))
  ∧ (is_absolute prefix = true →
     canonical_dep other (canonical_dep prefix dep_path)
     = canonical_dep prefix dep_path).
Proof.
  split; [|split].
  - intros Hd. unfold canonical_dep. by rewrite Hd.
  - intros Hd. unfold canonical_dep. rewrite Hd. by apply join_relative.
  - intros Hp. unfold canonical_dep at 1.
    by rewrite (canonical_dep_absolute prefix dep_path Hp).
Qed.

(** ** Locating the repository *)

Lemma ancestor_succ k d : ancestor (S k) d = ancestor k (parent d).
Proof. unfold ancestor. apply Nat.iter_succ_r. Qed.

Lemma ancestor_names k d :
  ancestor k d = mkPath (root d) (take (length (names d) - k) (names d)).
Proof.
  revert d. induction k as [|k IH]; intros d.
  - cbn. rewrite Nat.sub_0_r, firstn_all. by destruct d.
  - rewrite ancestor_succ, IH. unfold parent. cbn [root names]. f_equal.
    rewrite removelast_firstn_len, length_take, take_take. f_equal. lia.
Qed.

(** Above the top of the working directory the walk stays where it is. *)
Lemma ancestor_top k d :
  length (names d) ≤ k → ancestor k d = mkPath (root d) [].
Proof.
  intros Hk. rewrite ancestor_names.
  replace (length (names d) - k) with 0 by lia. done.
Qed.

Lemma repo_walk_found path_exists k : ∀ d fuel,
  (∀ j, j < k → has_marker path_exists (ancestor j d) = false) →
  has_marker path_exists (ancestor k d) = true →
  k < fuel →
  repo_walk path_exists fuel d = Returned (ancestor k d).
Proof.
  induction k as [|k IH]; intros d fuel Hbelow Hat Hfuel.
  - destruct fuel as [|n]; [lia|]. cbn [repo_walk].
    change (ancestor 0 d) with d in *. unfold has_marker in Hat.
    by rewrite Hat.
  - destruct fuel as [|n]; [lia|]. cbn [repo_walk].
    pose proof (Hbelow 0 ltac:(lia)) as H0.
    change (ancestor 0 d) with d in H0. unfold has_marker in H0.
    rewrite H0. rewrite ancestor_succ. apply IH.
    + intros j Hj. rewrite <- ancestor_succ. apply Hbelow. lia.
    + by rewrite <- ancestor_succ.
    + lia.
Qed.

Lemma repo_walk_lost path_exists : ∀ fuel d,
  (∀ j, has_marker path_exists (ancestor j d) = false) →
  repo_walk path_exists fuel d = Running (ancestor fuel d).
Proof.
  induction fuel as [|n IH]; intros d Hnone; [done|].
  cbn [repo_walk]. pose proof (Hnone 0) as H0.
  change (ancestor 0 d) with d in H0. unfold has_marker in H0.
  rewrite H0. rewrite ancestor_succ. apply IH.
  intros j. rewrite <- ancestor_succ. apply Hnone.
Qed.

Lemma no_marker_up_to_top path_exists d :
  (∀ j, j ≤ length (names d) → has_marker path_exists (ancestor j d) = false) →
  ∀ j, has_marker path_exists (ancestor j d) = false.
Proof.
  intros Hnone j. destruct (decide (j ≤ length (names d))) as [Hj|Hj].
  - by apply Hnone.
  - rewrite ancestor_top by lia.
    rewrite <- (ancestor_top (length (names d)) d) by lia. by apply Hnone.
Qed.

(** C7, as the code has it. [repo_abs_path] walks parent by parent from
    the working directory and returns the first directory that holds
    the marker; when no directory up to and including the file-system
    root holds it, the walk stays at the root, which is its own parent,
    and the loop is still running after any number of iterations: no
    error is raised. *)
Theorem repo_abs_path_walk (cwd : PurePath) (path_exists : PurePath → bool) :
  (∀ k, (∀ j, j < k → has_marker path_exists (ancestor j cwd) = false) →
        has_marker path_exists (ancestor k cwd) = true →
        ∀ fuel, k < fuel →
        repo_abs_path cwd path_exists fuel = Returned (ancestor k cwd))
  ∧ ((∀ j, j ≤ length (names cwd) →
           has_marker path_exists (ancestor j cwd) = false) →
     hangs (repo_abs_path cwd path_exists)
     ∧ ∀ fuel, length (names cwd) ≤ fuel →
         repo_abs_path cwd path_exists fuel = Running (mkPath (root cwd) [])).
Proof.
  split.
  - intros k Hbelow Hat fuel Hfuel. by apply repo_walk_found.
  - intros Hnone. pose proof (no_marker_up_to_top _ _ Hnone) as Hall. split.
    + intros fuel. eexists. by apply repo_walk_lost.
    + intros fuel Hfuel. unfold repo_abs_path.
      rewrite repo_walk_lost by done. f_equal. by apply ancestor_top.
Qed.

Lemma repo_abs_path_walk_witness :
  repo_abs_path (of_str "/home/dev/repo/lib")
    (λ p, bool_decide (p = of_str "/home/dev/repo/.git")) 2
  = Returned (of_str "/home/dev/repo")
  ∧ hangs (repo_abs_path (of_str "/home/dev") (λ _, false)).
Proof.
  split.
  - apply (proj1 (repo_abs_path_walk (of_str "/home/dev/repo/lib")
                    (λ p, bool_decide (p = of_str "/home/dev/repo/.git"))) 1).
    + intros j Hj. assert (j = 0) as -> by lia. reflexivity.
    + reflexivity.
    + lia.
  - apply (proj2 (repo_abs_path_walk (of_str "/home/dev") (λ _, false))).
    intros j _. reflexivity.
Defined.

(** C7, counterexample to the claim as stated: started in [/home/dev]
    on a file system without any marker directory, the walk reaches the
    root and goes on; it never fails. *)
Lemma repo_abs_path_without_marker_hangs :
  hangs (repo_abs_path (of_str "/home/dev") (λ _, false))
  ∧ ¬ ∃ fuel e, repo_abs_path (of_str "/home/dev") (λ _, false) fuel = Raised e.
Proof.
  assert (hangs (repo_abs_path (of_str "/home/dev") (λ _, false))) as Hhang.
  { intros fuel. eexists. by apply repo_walk_lost. }
  split; [exact Hhang|].
  intros (fuel & e & He). destruct (Hhang fuel) as [d Hd]. congruence.
Qed.

(** ** The ordered dictionary *)

Section Dict.
Context {V : Type}.
Implicit Types (d : dict V) (k : PurePath) (v : V).

Lemma dict_get_set_eq k v d : dict_get k (dict_set k v d) = Some v.
Proof.
  induction d as [|[k' v'] d IH]; cbn.
  - by rewrite decide_True.
  - destruct (decide (k' = k)) as [->|Hne]; cbn.
    + by rewrite decide_True.
    + by rewrite decide_False.
Qed.

Lemma dict_get_set_ne k k' v d :
  k' ≠ k → dict_get k (dict_set k' v d) = dict_get k d.
Proof.
  intros Hne. induction d as [|[k'' v''] d IH]; cbn.
  - by rewrite decide_False.
  - destruct (decide (k'' = k')) as [->|Hne']; cbn.
    + by rewrite !decide_False.
    + destruct (decide (k'' = k)); done.
Qed.

Lemma dict_set_keys k v d : keys (dict_set k v d) = {[k]} ∪ keys d.
Proof.
  unfold keys. induction d as [|[k' v'] d IH]; cbn.
  - done.
  - destruct (decide (k' = k)) as [->|Hne]; cbn.
    + set_solver.
    + rewrite IH. set_solver.
Qed.

Lemma dict_set_NoDup k v d : NoDup d.*1 → NoDup (dict_set k v d).*1.
Proof.
  induction d as [|[k' v'] d IH]; cbn; intros Hnd.
  - apply NoDup_singleton.
  - apply NoDup_cons in Hnd as [Hnotin Hnd].
    destruct (decide (k' = k)) as [->|Hne]; cbn.
    + by apply NoDup_cons.
    + apply NoDup_cons. split; [|by apply IH].
      intros Hin. apply Hnotin.
      assert (k' ∈ keys (dict_set k v d)) as Hk
        by (unfold keys; by apply elem_of_list_to_set).
      rewrite dict_set_keys in Hk. apply elem_of_union in Hk as [Hk|Hk].
      * apply elem_of_singleton in Hk. congruence.
      * unfold keys in Hk. by apply elem_of_list_to_set in Hk.
Qed.

Lemma dict_set_length k v d :
  length (dict_set k v d) = if decide (k ∈ keys d) then length d else S (length d).
Proof.
  unfold keys. induction d as [|[k' v'] d IH]; cbn.
  - rewrite decide_False; [done|set_solver].
  - destruct (decide (k' = k)) as [->|Hne]; cbn.
    + rewrite decide_True; [done|set_solver].
    + rewrite IH. destruct (decide (k ∈ _)) as [Hin|Hout].
      * rewrite decide_True; [done|set_solver].
      * rewrite decide_False; [done|set_solver].
Qed.

End Dict.

(** ** Loading a rule file *)

Lemma load_rule_explicit prefix prop_dict rule :
  load_rule prefix prop_dict (with_explicit_deps rule)
  = load_rule prefix prop_dict rule.
Proof. destruct rule as [name [s h m [l|]]]; reflexivity. Qed.

Lemma load_rules_explicit prefix rules : ∀ prop_dict,
  foldl (load_rule prefix) prop_dict (with_explicit_deps <$> rules)
  = foldl (load_rule prefix) prop_dict rules.
Proof.
  induction rules as [|rule rules IH]; intros prop_dict; [done|].
  cbn [fmap list_fmap foldl]. rewrite load_rule_explicit. apply IH.
Qed.

Lemma load_rules_keys prefix rules : ∀ prop_dict,
  keys (foldl (load_rule prefix) prop_dict rules)
  = list_to_set ((λ rule, prefix </> of_str rule.1) <$> rules) ∪ keys prop_dict.
Proof.
  induction rules as [|[name raw] rules IH]; intros prop_dict.
  - cbn. set_solver.
  - cbn [foldl fmap list_fmap list_to_set]. rewrite IH.
    unfold load_rule. rewrite dict_set_keys. cbn. set_solver.
Qed.

Lemma load_rules_NoDup prefix rules : ∀ prop_dict,
  NoDup prop_dict.*1 → NoDup (foldl (load_rule prefix) prop_dict rules).*1.
Proof.
  induction rules as [|[name raw] rules IH]; intros prop_dict Hnd; [done|].
  cbn [foldl]. apply IH. unfold load_rule. by apply dict_set_NoDup.
Qed.

(** The record found under a canonical name all of whose rules lack the
    ['deps'] key has no dependency. *)
Lemma load_rules_missing_deps prefix k rules : ∀ prop_dict,
  (∀ name raw, (name, raw) ∈ rules → prefix </> of_str name = k →
               yaml_deps raw = None) →
  (∃ name raw, (name, raw) ∈ rules ∧ prefix </> of_str name = k) →
  ∃ record, dict_get k (foldl (load_rule prefix) prop_dict rules) = Some record
            ∧ deps record = ∅.
Proof.
  induction rules as [|[name raw] rules IH] using rev_ind;
    intros prop_dict Hall (name' & raw' & Hin & Hk).
  - by apply elem_of_nil in Hin.
  - rewrite foldl_app. cbn [foldl]. unfold load_rule at 1.
    destruct (decide (prefix </> of_str name = k)) as [Heq|Hne].
    + rewrite Heq, dict_get_set_eq. eexists. split; [done|]. cbn.
      rewrite (Hall name raw); [done| |done].
      apply elem_of_app. right. by apply list_elem_of_singleton.
    + rewrite dict_get_set_ne by done. apply IH.
      * intros n r Hnr. apply Hall. apply elem_of_app. by left.
      * apply elem_of_app in Hin as [Hin|Hin]; [by eauto|].
        apply list_elem_of_singleton in Hin. congruence.
Qed.

(** *** Running a computation on a log *)

Lemma run_bind {A B} (m : M A) (k : A → M B) log :
  (m ≫= k) log
  = match m log with
    | (Ok a, log') => k a log'
    | (Raise e, log') => (Raise e, log')
    end.
Proof. reflexivity. Qed.

Lemma run_ret {A} (a : A) log : (mret a : M A) log = (Ok a, log).
Proof. reflexivity. Qed.

Lemma run_emit e log : emit e log = (Ok tt, log ++ [e]).
Proof. reflexivity. Qed.

Lemma run_lift_ok {A} (a : A) log : lift (Ok a) log = (Ok a, log).
Proof. reflexivity. Qed.

Lemma run_lift_raise {A} e log : lift (@Raise A e) log = (Raise e, log).
Proof. reflexivity. Qed.

Lemma run_raise {A} e log : (raise e : M A) log = (Raise e, log).
Proof. reflexivity. Qed.

Create Rewrite HintDb run.
#[global] Hint Rewrite @run_bind @run_ret @run_emit @run_lift_ok @run_lift_raise
  @run_raise : run.

Lemma load_prefix_ok repo rule_files prefix rules log :
  valid_prefix prefix = true →
  rule_files (repo </> mkPath NoRoot (names prefix) </> of_str FILENAME) = Some rules →
  load_prefix repo rule_files prefix log
  = (Ok (foldl (load_rule prefix) [] rules), log ++ [Loading prefix]).
Proof.
  intros Hp Hfile. unfold load_prefix.
  rewrite prefix_to_rel_path_valid by done. autorewrite with run.
  rewrite Hfile. by autorewrite with run.
Qed.

(** C6, as the code has it. A declared target whose record lacks the
    ['deps'] key does not make the loader fail: the file is loaded as
    if the key were there with the empty list, every declared target is
    in the result, and a target declared without the key has the empty
    dependency set. *)
Theorem load_prefix_defaults_missing_deps
    (repo : PurePath) (rule_files : PurePath → option (list (string * RawProps)))
    (prefix : PurePath) (rules : list (string * RawProps)) (log : list event) :
  valid_prefix prefix = true →
  rule_files (repo </> mkPath NoRoot (names prefix) </> of_str FILENAME) = Some rules →
  ∃ loaded,
    load_prefix repo rule_files prefix log = (Ok loaded, log ++ [Loading prefix])
    ∧ loaded = foldl (load_rule prefix) [] (with_explicit_deps <$> rules)
    ∧ (∀ name raw, (name, raw) ∈ rules → prefix </> of_str name ∈ keys loaded)
    ∧ (∀ name raw,
         (name, raw) ∈ rules →
         (∀ name' raw', (name', raw') ∈ rules →
            prefix </> of_str name' = prefix </> of_str name →
            yaml_deps raw' = None) →
         ∃ record, dict_get (prefix </> of_str name) loaded = Some record
                   ∧ deps record = ∅).
Proof.
  intros Hp Hfile. eexists. split; [by apply load_prefix_ok|].
  split; [by rewrite load_rules_explicit|]. split.
  - intros name raw Hin. rewrite load_rules_keys.
    apply elem_of_union. left. apply elem_of_list_to_set.
    apply list_elem_of_fmap. by exists (name, raw).
  - intros name raw Hin Hall. apply load_rules_missing_deps; [done|by eauto].
Qed.

Lemma load_prefix_defaults_missing_deps_witness :
  ∃ loaded,
    load_prefix (of_str "/home/dev/repo")
      (λ _, Some [("core", mkRaw (Some ["a.cc"]) None None None)])
      (of_str "//lib") []
    = (Ok loaded, [Loading (of_str "//lib")])
    ∧ ∃ record, dict_get (of_str "//lib/core") loaded = Some record
                ∧ deps record = ∅.
Proof.
  destruct (load_prefix_defaults_missing_deps (of_str "/home/dev/repo")
              (λ _, Some [("core", mkRaw (Some ["a.cc"]) None None None)])
              (of_str "//lib") [("core", mkRaw (Some ["a.cc"]) None None None)] [])
    as (loaded & Hload & _ & _ & Hdeps); [reflexivity|reflexivity|].
  exists loaded. split; [exact Hload|].
  apply (Hdeps "core" (mkRaw (Some ["a.cc"]) None None None)).
  - apply list_elem_of_singleton. reflexivity.
  - intros name' raw' Hin _. apply list_elem_of_singleton in Hin.
    by injection Hin as -> ->.
Defined.

(** C6, counterexample to the claim as stated: a rule file whose only
    target has no ['deps'] key is loaded without any error, the target
    getting the empty dependency set. *)
Lemma load_prefix_without_deps_key_succeeds :
  load_prefix (of_str "/home/dev/repo")
    (λ _, Some [("core", mkRaw (Some ["a.cc"]) None None None)])
    (of_str "//lib") []
  = (Ok [(of_str "//lib/core", mkProps (Some ["a.cc"]) None None ∅)],
     [Loading (of_str "//lib")]).
Proof. reflexivity. Qed.

(** ** The toolchain driver *)

Lemma bind_ok_inv {A B} (m : M A) (k : A → M B) log b log' :
  (m ≫= k) log = (Ok b, log') →
  ∃ a log1, m log = (Ok a, log1) ∧ k a log1 = (Ok b, log').
Proof.
  rewrite run_bind. destruct (m log) as [[a|e] log1]; [by eauto|done].
Qed.

Lemma lift_ok_inv {A} (r : result A) log a log' :
  lift r log = (Ok a, log') → r = Ok a ∧ log' = log.
Proof. destruct r; cbn; intros [= <- <-]; done. Qed.

Lemma run_cmd_run toolchain command log :
  cmd_run toolchain command log
  = (Ok tt,
     log ++ [Echo (String.concat " " command);
             Spawn command
               (toolchain (log ++ [Echo (String.concat " " command)]) command)]).
Proof.
  unfold cmd_run, subprocess_run. autorewrite with run.
  by rewrite <- app_assoc.
Qed.

Lemma compile_srcs_objects repo toolchain rule_dir target_out sources :
  ∀ objects log result log',
  compile_srcs repo toolchain rule_dir target_out sources objects log
  = (Ok result, log') →
  ∃ new, result = objects ++ new
         ∧ Forall2 (λ src o, ∃ dot_o,
                      with_suffix (target_out </> of_str src) ".o" = Ok dot_o
                      ∧ o = str dot_o) sources new.
Proof.
  induction sources as [|src rest IH]; intros objects log result log' Hrun.
  - cbn in Hrun. injection Hrun as <- <-. exists []. by rewrite app_nil_r.
  - cbn [compile_srcs] in Hrun.
    apply bind_ok_inv in Hrun as (dot_o & log1 & Hsuffix & Hrun).
    apply lift_ok_inv in Hsuffix as [Hsuffix ->].
    apply bind_ok_inv in Hrun as ([] & log2 & _ & Hrun).
    apply IH in Hrun as (new & -> & Hnew).
    exists (str dot_o :: new). split; [by rewrite <- app_assoc|].
    constructor; [by eauto|done].
Qed.

Lemma dep_archives_objects repo dependencies : ∀ objects result,
  dep_archives repo dependencies objects = Ok result →
  ∃ new, result = objects ++ new
         ∧ Forall2 (archive_of repo) dependencies new.
Proof.
  induction dependencies as [|dep rest IH]; intros objects result Hrun.
  - cbn in Hrun. injection Hrun as <-. exists []. by rewrite app_nil_r.
  - cbn [dep_archives] in Hrun.
    destruct (prefix_to_abs_out_name repo dep) as [out|] eqn:Hout; [|done].
    cbn [and_then] in Hrun.
    destruct (with_suffix out ".a") as [dot_a|] eqn:Hdot; [|done].
    cbn [and_then] in Hrun.
    apply IH in Hrun as (new & -> & Hnew).
    exists (str dot_a :: new). split; [by rewrite <- app_assoc|].
    constructor; [|done]. by exists out, dot_a.
Qed.

(** C2, as the code has it. For a target whose [main] flag is false or
    absent, the last thing [do_cpp] does is to run the archiver on the
    object files compiled from the target's own sources followed by the
    archive of every one of its dependencies. *)
Theorem archiver_gets_objects_and_dependency_archives
    (repo : PurePath) (toolchain : list event → list string → Z)
    (name : PurePath) (props : Props) (log log' : list event) :
  default false (main props) = false →
  do_cpp repo toolchain name props log = (Ok tt, log') →
  ∃ earlier dot_a objects archives status,
    log' = earlier ++ [Spawn ([AR; "rcsuUPT"; dot_a] ++ objects ++ archives) status]
    ∧ archive_of repo name dot_a
    ∧ Forall2 (object_of repo name) (default [] (srcs props)) objects
    ∧ Forall2 (archive_of repo) (elements (deps props)) archives.
Proof.
  intros Hmain Hrun. unfold do_cpp in Hrun. rewrite Hmain in Hrun.
  apply bind_ok_inv in Hrun as (abs_path & log1 & Habs & Hrun).
  apply lift_ok_inv in Habs as [Habs ->].
  apply bind_ok_inv in Hrun as ([] & log2 & _ & Hrun).
  apply bind_ok_inv in Hrun as (objects & log3 & Hcompile & Hrun).
  apply compile_srcs_objects in Hcompile as (own & -> & Hown).
  apply bind_ok_inv in Hrun as (all & log4 & Hdeps & Hrun).
  apply lift_ok_inv in Hdeps as [Hdeps ->].
  apply dep_archives_objects in Hdeps as (archives & -> & Harchives).
  apply bind_ok_inv in Hrun as (out_name & log5 & Hout & Hrun).
  apply lift_ok_inv in Hout as [Hout ->].
  apply bind_ok_inv in Hrun as (dot_a & log6 & Hdot & Hrun).
  apply lift_ok_inv in Hdot as [Hdot ->].
  rewrite run_cmd_run in Hrun. injection Hrun as <-.
  exists (log3 ++ [Echo (String.concat " "
                     ([AR; "rcsuUPT"; str dot_a] ++ [] ++ own ++ archives))]).
  exists (str dot_a), own, archives. eexists. split; [|split; [|split]].
  - rewrite <- app_assoc. cbn [app]. reflexivity.
  - by exists out_name, dot_a.
  - eapply Forall2_impl; [exact Hown|]. intros src o (dot_o & Hsuffix & ->).
    by exists abs_path, dot_o.
  - done.
Qed.

Lemma archiver_gets_objects_and_dependency_archives_witness :
  ∃ earlier dot_a objects archives status,
    [Mkdir (of_str "/home/dev/repo/app/.out");
     Echo "clang++ -O3 -std=c++20 -I/home/dev/repo -c /home/dev/repo/app/u.cc -o /home/dev/repo/app/.out/u.o";
     Spawn ["clang++"; "-O3"; "-std=c++20"; "-I/home/dev/repo"; "-c";
            "/home/dev/repo/app/u.cc"; "-o"; "/home/dev/repo/app/.out/u.o"] 0;
     Echo "ar rcsuUPT /home/dev/repo/app/.out/util.a /home/dev/repo/app/.out/u.o /home/dev/repo/lib/.out/core.a";
     Spawn ["ar"; "rcsuUPT"; "/home/dev/repo/app/.out/util.a";
            "/home/dev/repo/app/.out/u.o"; "/home/dev/repo/lib/.out/core.a"] 0]
    = earlier ++ [Spawn ([AR; "rcsuUPT"; dot_a] ++ objects ++ archives) status]
    ∧ archive_of (of_str "/home/dev/repo") (of_str "//app/util") dot_a
    ∧ Forall2 (object_of (of_str "/home/dev/repo") (of_str "//app/util"))
        (default [] (srcs (mkProps (Some ["u.cc"]) None None {[of_str "//lib/core"]})))
        objects
    ∧ Forall2 (archive_of (of_str "/home/dev/repo"))
        (elements (deps (mkProps (Some ["u.cc"]) None None {[of_str "//lib/core"]})))
        archives.
Proof.
  refine (archiver_gets_objects_and_dependency_archives
            (of_str "/home/dev/repo") (λ _ _, 0%Z) (of_str "//app/util")
            (mkProps (Some ["u.cc"]) None None {[of_str "//lib/core"]}) [] _ _ _).
  - reflexivity.
  - vm_compute. reflexivity.
Defined.

(** C2, counterexample to the claim as stated: for the library target
    [//app/util] with one source and the dependency [//lib/core], the
    archiver is given the archive of the dependency after the target's
    own object file. *)
Lemma archiver_is_given_a_dependency_archive :
  do_cpp (of_str "/home/dev/repo") (λ _ _, 0%Z) (of_str "//app/util")
    (mkProps (Some ["u.cc"]) None (Some false) {[of_str "//lib/core"]}) []
  = (Ok tt,
     [Mkdir (of_str "/home/dev/repo/app/.out");
      Echo "clang++ -O3 -std=c++20 -I/home/dev/repo -c /home/dev/repo/app/u.cc -o /home/dev/repo/app/.out/u.o";
      Spawn ["clang++"; "-O3"; "-std=c++20"; "-I/home/dev/repo"; "-c";
             "/home/dev/repo/app/u.cc"; "-o"; "/home/dev/repo/app/.out/u.o"] 0;
      Echo "ar rcsuUPT /home/dev/repo/app/.out/util.a /home/dev/repo/app/.out/u.o /home/dev/repo/lib/.out/core.a";
      Spawn ["ar"; "rcsuUPT"; "/home/dev/repo/app/.out/util.a";
             "/home/dev/repo/app/.out/u.o"; "/home/dev/repo/lib/.out/core.a"] 0]).
Proof. vm_compute. reflexivity. Qed.

(** ** Silent computations *)

Lemma executed_app l1 l2 : executed (l1 ++ l2) = executed l1 ++ executed l2.
Proof. apply omap_app. Qed.

Lemma silent_ret {A} (a : A) : silent (mret a : M A).
Proof. intros log. exists []. by rewrite app_nil_r. Qed.

Lemma silent_raise {A} e : silent (raise e : M A).
Proof. intros log. exists []. by rewrite app_nil_r. Qed.

Lemma silent_lift {A} (r : result A) : silent (lift r).
Proof. destruct r; [apply silent_ret|apply silent_raise]. Qed.

Lemma silent_bind {A B} (m : M A) (k : A → M B) :
  silent m → (∀ a, silent (k a)) → silent (m ≫= k).
Proof.
  intros Hm Hk log. rewrite run_bind. destruct (Hm log) as (ext1 & Hlog1 & Hq1).
  destruct (m log) as [[a|e] log1]; cbn in Hlog1; subst log1.
  - destruct (Hk a (log ++ ext1)) as (ext2 & Hlog2 & Hq2).
    exists (ext1 ++ ext2). rewrite Hlog2, app_assoc. split; [done|].
    by rewrite executed_app, Hq1, Hq2.
  - by exists ext1.
Qed.

Lemma silent_cmd_run toolchain command : silent (cmd_run toolchain command).
Proof. intros log. rewrite run_cmd_run. by eexists. Qed.

Lemma silent_compile_srcs repo toolchain rule_dir target_out sources :
  ∀ objects,
  silent (compile_srcs repo toolchain rule_dir target_out sources objects).
Proof.
  induction sources as [|src rest IH]; intros objects; cbn [compile_srcs].
  - apply silent_ret.
  - apply silent_bind; [apply silent_lift|]. intros dot_o.
    apply silent_bind; [apply silent_cmd_run|]. intros _. apply IH.
Qed.

Lemma silent_do_cpp repo toolchain name props :
  silent (do_cpp repo toolchain name props).
Proof.
  unfold do_cpp.
  apply silent_bind; [apply silent_lift|]. intros abs_path.
  apply silent_bind; [by intros log; eexists|]. intros _.
  apply silent_bind; [apply silent_compile_srcs|]. intros objects.
  apply silent_bind; [apply silent_lift|]. intros all.
  apply silent_bind; [apply silent_lift|]. intros out_name.
  destruct (default false (main props)); [apply silent_cmd_run|].
  apply silent_bind; [apply silent_lift|]. intros dot_a. apply silent_cmd_run.
Qed.

Lemma silent_load_prefix repo rule_files prefix :
  silent (load_prefix repo rule_files prefix).
Proof.
  unfold load_prefix.
  apply silent_bind; [by intros log; eexists|]. intros _.
  apply silent_bind; [apply silent_lift|]. intros rel_path.
  destruct (rule_files _); [apply silent_ret|apply silent_raise].
Qed.

Lemma silent_scan_deps repo rule_files dependencies : ∀ new_dict loaded,
  silent (scan_deps repo rule_files dependencies new_dict loaded).
Proof.
  induction dependencies as [|dep rest IH]; intros new_dict loaded;
    cbn [scan_deps].
  - apply silent_ret.
  - destruct (decide _); [|apply IH].
    apply silent_bind; [apply silent_load_prefix|]. intros found. apply IH.
Qed.

Lemma silent_scan_items repo rule_files items : ∀ new_dict loaded seen,
  silent (scan_items repo rule_files items new_dict loaded seen).
Proof.
  induction items as [|[target props] rest IH]; intros new_dict loaded seen;
    cbn [scan_items].
  - apply silent_ret.
  - apply silent_bind; [apply silent_scan_deps|]. intros [new_dict' loaded'].
    apply IH.
Qed.

Lemma silent_start repo cwd rule_files : silent (start repo cwd rule_files).
Proof.
  unfold start.
  apply silent_bind; [apply silent_lift|]. intros here.
  apply silent_bind; [apply silent_load_prefix|]. intros found.
  apply silent_bind; [apply silent_lift|]. intros here'. apply silent_ret.
Qed.

(** ** Exit statuses have no influence *)

Lemma same_but_status_snoc l1 l2 e1 e2 :
  same_but_status l1 l2 → forget_status e1 = forget_status e2 →
  same_but_status (l1 ++ [e1]) (l2 ++ [e2]).
Proof.
  unfold same_but_status. intros Hl He. rewrite !fmap_app. cbn. congruence.
Qed.

Lemma alike_ret {A} (a : A) : alike (mret a : M A) (mret a).
Proof. intros l1 l2 Hl. done. Qed.

Lemma alike_raise {A} e : alike (raise e : M A) (raise e).
Proof. intros l1 l2 Hl. done. Qed.

Lemma alike_lift {A} (r : result A) : alike (lift r) (lift r).
Proof. destruct r; [apply alike_ret|apply alike_raise]. Qed.

Lemma alike_emit e : alike (emit e) (emit e).
Proof.
  intros l1 l2 Hl. rewrite !run_emit. split; [done|].
  by apply same_but_status_snoc.
Qed.

Lemma alike_bind {A B} (m1 m2 : M A) (k1 k2 : A → M B) :
  alike m1 m2 → (∀ a, alike (k1 a) (k2 a)) → alike (m1 ≫= k1) (m2 ≫= k2).
Proof.
  intros Hm Hk l1 l2 Hl. rewrite !run_bind.
  destruct (Hm l1 l2 Hl) as [Hres Hlog].
  destruct (m1 l1) as [[a1|e1] l1'], (m2 l2) as [[a2|e2] l2'];
    cbn in Hres, Hlog; try done.
  - injection Hres as ->. by apply Hk.
  - injection Hres as ->. done.
Qed.

Lemma alike_cmd_run toolchain1 toolchain2 command :
  alike (cmd_run toolchain1 command) (cmd_run toolchain2 command).
Proof.
  intros l1 l2 Hl. rewrite !run_cmd_run. split; [done|].
  unfold same_but_status in *. cbn [snd]. rewrite !fmap_app. cbn.
  by rewrite Hl.
Qed.

Lemma alike_compile_srcs repo toolchain1 toolchain2 rule_dir target_out sources :
  ∀ objects,
  alike (compile_srcs repo toolchain1 rule_dir target_out sources objects)
        (compile_srcs repo toolchain2 rule_dir target_out sources objects).
Proof.
  induction sources as [|src rest IH]; intros objects; cbn [compile_srcs].
  - apply alike_ret.
  - apply alike_bind; [apply alike_lift|]. intros dot_o.
    apply alike_bind; [apply alike_cmd_run|]. intros _. apply IH.
Qed.

Lemma alike_do_cpp repo toolchain1 toolchain2 name props :
  alike (do_cpp repo toolchain1 name props) (do_cpp repo toolchain2 name props).
Proof.
  unfold do_cpp.
  apply alike_bind; [apply alike_lift|]. intros abs_path.
  apply alike_bind; [apply alike_emit|]. intros _.
  apply alike_bind; [apply alike_compile_srcs|]. intros objects.
  apply alike_bind; [apply alike_lift|]. intros all.
  apply alike_bind; [apply alike_lift|]. intros out_name.
  destruct (default false (main props)); [apply alike_cmd_run|].
  apply alike_bind; [apply alike_lift|]. intros dot_a. apply alike_cmd_run.
Qed.

Lemma alike_sched_pass repo toolchain1 toolchain2 items : ∀ done_targets,
  alike (sched_pass repo toolchain1 items done_targets)
        (sched_pass repo toolchain2 items done_targets).
Proof.
  induction items as [|[target props] rest IH]; intros done_targets;
    cbn [sched_pass].
  - apply alike_ret.
  - destruct (ready done_targets target props); [|apply IH].
    apply alike_bind; [apply alike_emit|]. intros _.
    apply alike_bind; [apply alike_do_cpp|]. intros _. apply IH.
Qed.

Lemma schedule_alike repo toolchain1 toolchain2 graph universe fuel :
  ∀ done_targets l1 l2,
  same_but_status l1 l2 →
  (schedule repo toolchain1 fuel graph universe done_targets l1).1
  = (schedule repo toolchain2 fuel graph universe done_targets l2).1
  ∧ same_but_status
      (schedule repo toolchain1 fuel graph universe done_targets l1).2
      (schedule repo toolchain2 fuel graph universe done_targets l2).2.
Proof.
  induction fuel as [|n IH]; intros done_targets l1 l2 Hl; cbn [schedule];
    [done|].
  destruct (decide _); [|done].
  destruct (alike_sched_pass repo toolchain1 toolchain2 graph done_targets
              l1 l2 Hl) as [Hres Hlog].
  destruct (sched_pass repo toolchain1 _ _ l1) as [[d1|e1] l1'],
           (sched_pass repo toolchain2 _ _ l2) as [[d2|e2] l2'];
    cbn in Hres, Hlog; try done.
  - injection Hres as ->. by apply IH.
  - injection Hres as ->. done.
Qed.

(** C4, as the code has it. [cmd_run] returns normally whatever exit
    status the subprocess comes back with, and the exit statuses have
    no influence on the run: under any two toolchains the build ends
    the same way after the same printed lines, created directories and
    subprocess commands. *)
Theorem exit_status_is_ignored
    (repo cwd : PurePath) (rule_files : PurePath → option (list (string * RawProps)))
    (toolchain1 toolchain2 : list event → list string → Z)
    (command : list string) (log : list event) (fuel : nat) :
  (∃ status,
     cmd_run toolchain1 command log
     = (Ok tt, log ++ [Echo (String.concat " " command); Spawn command status]))
  ∧ (build repo cwd rule_files toolchain1 fuel).1
    = (build repo cwd rule_files toolchain2 fuel).1
  ∧ same_but_status (build repo cwd rule_files toolchain1 fuel).2
                    (build repo cwd rule_files toolchain2 fuel).2.
Proof.
  split; [eexists; apply run_cmd_run|].
  unfold build. destruct (start repo cwd rule_files []) as [[st|e] log0]; [|done].
  destruct (discover repo rule_files fuel 0 st log0) as [[st'|st'|e] log1];
    [done| |done].
  by apply schedule_alike.
Qed.

(** ** The scheduler *)

Lemma ready_spec done_targets target props :
  ready done_targets target props = true
  ↔ deps props ⊆ done_targets ∧ target ∉ done_targets.
Proof.
  unfold ready. rewrite andb_true_iff, !bool_decide_eq_true.
  unfold set_Forall. set_solver.
Qed.

Lemma run_in_turn_app graph l1 : ∀ done_targets l2,
  run_in_turn graph done_targets l1 →
  run_in_turn graph (list_to_set l1 ∪ done_targets) l2 →
  run_in_turn graph done_targets (l1 ++ l2).
Proof.
  induction l1 as [|t l1 IH]; intros done_targets l2 H1 H2; cbn in *.
  - by rewrite union_empty_l_L in H2.
  - destruct H1 as (Hprops & Hnew & Hrest). split; [done|]. split; [done|].
    apply IH; [done|].
    by replace (list_to_set l1 ∪ ({[t]} ∪ done_targets))
      with ({[t]} ∪ list_to_set l1 ∪ done_targets) by set_solver.
Qed.

(** The targets run in turn are new, pairwise distinct targets of the
    graph. *)
Lemma run_in_turn_fresh graph order : ∀ done_targets,
  run_in_turn graph done_targets order →
  NoDup order
  ∧ (∀ t, t ∈ order → t ∉ done_targets)
  ∧ (∀ t, t ∈ order → t ∈ keys graph).
Proof.
  induction order as [|t order IH]; intros done_targets Hturn; cbn in Hturn.
  - split; [constructor|]. split; intros t Ht; by apply elem_of_nil in Ht.
  - destruct Hturn as ((props & Hin & _) & Hnew & Hrest).
    destruct (IH _ Hrest) as (Hnd & Hfresh & Hkeys). split; [|split].
    + constructor; [|done]. intros Ht. apply Hfresh in Ht. set_solver.
    + intros t' [->|Ht']%elem_of_cons; [done|].
      apply Hfresh in Ht'. set_solver.
    + intros t' [->|Ht']%elem_of_cons; [|by apply Hkeys].
      unfold keys. apply elem_of_list_to_set, list_elem_of_fmap.
      by exists (t, props).
Qed.

(** When its turn comes, a target has its dependencies among the
    targets complete at the start and those run before it. *)
Lemma run_in_turn_split graph before : ∀ done_targets t after,
  run_in_turn graph done_targets (before ++ t :: after) →
  ∃ props, (t, props) ∈ graph
           ∧ deps props ⊆ list_to_set before ∪ done_targets.
Proof.
  induction before as [|b before IH]; intros done_targets t after Hturn;
    cbn in Hturn.
  - destruct Hturn as ((props & Hin & Hdeps) & _). exists props.
    split; [done|]. cbn. set_solver.
  - destruct Hturn as (_ & _ & Hrest).
    apply IH in Hrest as (props & Hin & Hdeps). exists props.
    split; [done|]. cbn. set_solver.
Qed.

(** One pass from the completion set [done_targets]: the targets it
    announces are run in turn; when it ends normally the completion set
    has grown by exactly these targets, and every item whose
    dependencies were complete at the start of the pass is complete at
    its end. *)
Lemma sched_pass_run repo toolchain graph items :
  (∀ item, item ∈ items → item ∈ graph) →
  ∀ done_targets log,
  ∃ ext,
    (sched_pass repo toolchain items done_targets log).2 = log ++ ext
    ∧ run_in_turn graph done_targets (executed ext)
    ∧ ∀ done_targets',
        (sched_pass repo toolchain items done_targets log).1 = Ok done_targets' →
        done_targets' = list_to_set (executed ext) ∪ done_targets
        ∧ ∀ t props, (t, props) ∈ items → deps props ⊆ done_targets →
                     t ∈ done_targets'.
Proof.
  induction items as [|[target props] rest IH]; intros Hsub done_targets log.
  - exists []. cbn. rewrite app_nil_r. split; [done|]. split; [done|].
    intros d [= <-]. split; [set_solver|].
    intros t p Hin. by apply elem_of_nil in Hin.
  - assert (∀ item, item ∈ rest → item ∈ graph) as Hrest
      by (intros item Hitem; apply Hsub; by right).
    cbn [sched_pass]. destruct (ready done_targets target props) eqn:Hready.
    + apply ready_spec in Hready as [Hdeps Hnew].
      rewrite run_bind, run_emit, run_bind.
      destruct (silent_do_cpp repo toolchain target props (log ++ [Doing target]))
        as (ext1 & Hlog1 & Hquiet1).
      destruct (do_cpp repo toolchain target props (log ++ [Doing target]))
        as [[[]|e] log1]; cbn in Hlog1; subst log1.
      * destruct (IH Hrest ({[target]} ∪ done_targets)
                    ((log ++ [Doing target]) ++ ext1))
          as (ext2 & Hlog2 & Hturn & Hok).
        exists ([Doing target] ++ ext1 ++ ext2).
        rewrite Hlog2, !executed_app, Hquiet1. cbn [executed omap app].
        split; [by rewrite <- !app_assoc|]. split.
        -- cbn. split; [|done]. exists props. split; [|done].
           apply Hsub. by left.
        -- intros d Hd. apply Hok in Hd as [-> Hcover]. split; [set_solver|].
           intros t p [[= -> ->]|Hin]%elem_of_cons Hp; [set_solver|].
           apply (Hcover t p Hin). set_solver.
      * exists ([Doing target] ++ ext1).
        rewrite !executed_app, Hquiet1. cbn.
        split; [by rewrite <- !app_assoc|]. split; [|done].
        split; [|done]. exists props. split; [|done]. apply Hsub. by left.
    + destruct (IH Hrest done_targets log) as (ext & Hlog & Hturn & Hok).
      exists ext. split; [done|]. split; [done|].
      intros d Hd. apply Hok in Hd as [-> Hcover]. split; [done|].
      intros t p [[= -> ->]|Hin]%elem_of_cons Hp; [|by apply (Hcover t p)].
      apply not_true_iff_false in Hready. rewrite ready_spec in Hready.
      destruct (decide (target ∈ done_targets)) as [Hin|Hout]; [set_solver|].
      by destruct Hready.
Qed.

(** Any number of passes: the targets announced are run in turn from
    the completion set the loop started with, the completion set is the
    initial one grown by exactly these targets, and the loop returns
    only once it equals the set of all targets. *)
Lemma schedule_run repo toolchain graph universe : ∀ fuel done_targets log,
  ∃ ext,
    (schedule repo toolchain fuel graph universe done_targets log).2 = log ++ ext
    ∧ run_in_turn graph done_targets (executed ext)
    ∧ match (schedule repo toolchain fuel graph universe done_targets log).1 with
      | Running d => d = list_to_set (executed ext) ∪ done_targets
      | Returned d =>
          d = list_to_set (executed ext) ∪ done_targets ∧ d = universe
      | Raised _ => True
      end.
Proof.
  induction fuel as [|n IH]; intros done_targets log; cbn [schedule].
  - exists []. cbn. rewrite app_nil_r. split; [done|]. split; [done|].
    set_solver.
  - destruct (decide (universe ≠ done_targets)) as [Hne|Heq].
    + destruct (sched_pass_run repo toolchain graph graph (λ _ H, H)
                  done_targets log) as (ext1 & Hlog1 & Hturn1 & Hok1).
      destruct (sched_pass repo toolchain graph done_targets log)
        as [[d1|e] log1]; cbn in Hlog1; subst log1.
      * destruct (Hok1 d1 eq_refl) as [-> _].
        destruct (IH (list_to_set (executed ext1) ∪ done_targets) (log ++ ext1))
          as (ext2 & Hlog2 & Hturn2 & Hout).
        exists (ext1 ++ ext2). rewrite Hlog2, executed_app, app_assoc.
        split; [done|]. split; [by apply run_in_turn_app|].
        destruct (schedule _ _ _ _ _ _ _).1 as [d|d|e]; [| |done].
        -- rewrite Hout, list_to_set_app_L. set_solver.
        -- destruct Hout as [Hd Hu]. split; [|done].
           rewrite Hd, list_to_set_app_L. set_solver.
      * exists ext1. done.
    + exists []. cbn. rewrite app_nil_r. split; [done|]. split; [done|].
      split; [set_solver|]. by apply dec_stable in Heq.
Qed.

Lemma discover_silent repo rule_files : ∀ fuel size st log,
  ∃ ext, (discover repo rule_files fuel size st log).2 = log ++ ext
         ∧ executed ext = [].
Proof.
  induction fuel as [|n IH]; intros size st log; cbn [discover].
  - exists []. by rewrite app_nil_r.
  - destruct (decide _); [|exists []; by rewrite app_nil_r].
    destruct (silent_scan_items repo rule_files (prop_dict st) []
                (loaded_prefixes st) (targets st) log) as (ext1 & Hlog1 & Hq1).
    destruct (scan_items _ _ _ _ _ _ log) as [[[[nd ld] sn]|e] log1];
      cbn in Hlog1; subst log1.
    + destruct (IH (length (prop_dict st))
                  (mkDiscovery (dict_update (prop_dict st) nd) ld sn)
                  (log ++ ext1)) as (ext2 & Hlog2 & Hq2).
      exists (ext1 ++ ext2). rewrite Hlog2, app_assoc. split; [done|].
      by rewrite executed_app, Hq1, Hq2.
    + by exists ext1.
Qed.

(** The log of the build, up to the start of the scheduling loop,
    announces no target. *)
Lemma build_run repo cwd rule_files toolchain fuel :
  ∃ graph, run_in_turn graph ∅
             (executed (build repo cwd rule_files toolchain fuel).2).
Proof.
  unfold build.
  destruct (silent_start repo cwd rule_files []) as (ext0 & Hlog0 & Hq0).
  destruct (start repo cwd rule_files []) as [[st|e] log0];
    cbn in Hlog0; subst log0; cbn [app].
  - destruct (discover_silent repo rule_files fuel 0 st ext0)
      as (ext1 & Hlog1 & Hq1).
    destruct (discover repo rule_files fuel 0 st ext0) as [[st'|st'|e] log1];
      cbn in Hlog1; subst log1.
    + exists []. cbn. by rewrite executed_app, Hq0, Hq1.
    + destruct (schedule_run repo toolchain (prop_dict st') (targets st')
                  fuel ∅ (ext0 ++ ext1)) as (ext2 & Hlog2 & Hturn & _).
      exists (prop_dict st'). rewrite Hlog2, !executed_app, Hq0, Hq1. done.
    + exists []. cbn. by rewrite executed_app, Hq0, Hq1.
  - exists []. cbn [snd]. by rewrite Hq0.
Qed.

(** C10. In a run of the script no target is announced, and so handed
    to the toolchain driver, twice; and from any state of the scheduling
    loop, the targets it goes on to run are pairwise distinct and none
    of them is in the completion set already. *)
Theorem each_target_is_executed_at_most_once
    (cwd : PurePath) (path_exists : PurePath → bool)
    (rule_files : PurePath → option (list (string * RawProps)))
    (toolchain : list event → list string → Z) (fuel : nat) :
  NoDup (executed (xmake cwd path_exists rule_files toolchain fuel).2)
  ∧ ∀ repo graph universe done_targets log,
      ∃ ext,
        (schedule repo toolchain fuel graph universe done_targets log).2
        = log ++ ext
        ∧ NoDup (executed ext)
        ∧ ∀ t, t ∈ executed ext → t ∉ done_targets.
Proof.
  split.
  - unfold xmake.
    destruct (repo_abs_path cwd path_exists fuel) as [d|repo|e];
      [constructor| |constructor].
    destruct (build_run repo cwd rule_files toolchain fuel) as [graph Hturn].
    by apply run_in_turn_fresh in Hturn as (Hnd & _).
  - intros repo graph universe done_targets log.
    destruct (schedule_run repo toolchain graph universe fuel done_targets log)
      as (ext & Hlog & Hturn & _).
    exists ext. split; [done|].
    by apply run_in_turn_fresh in Hturn as (Hnd & Hfresh & _).
Qed.

(** ** When the toolchain driver completes *)

Lemma kept_nonempty x : kept x = true → x ≠ "".
Proof. intros Hk ->. done. Qed.

Lemma of_str_names_nonempty s : Forall (λ x, x ≠ "") (names (of_str s)).
Proof.
  apply Forall_forall. intros x Hx. unfold of_str in Hx. cbn in Hx.
  apply list_elem_of_filter in Hx as [Hk _]. apply kept_nonempty.
  by apply Is_true_true.
Qed.

Lemma last_nonempty (l : list string) :
  l ≠ [] → Forall (λ x, x ≠ "") l → List.last l "" ≠ "".
Proof.
  induction l as [|x l IH]; [done|]. intros _ Hall.
  apply Forall_cons in Hall as [Hx Hall]. destruct l as [|y l]; [done|].
  change (List.last (x :: y :: l) "") with (List.last (y :: l) "").
  by apply IH.
Qed.

Lemma last_app_nonempty (l1 l2 : list string) d :
  l2 ≠ [] → List.last (l1 ++ l2) d = List.last l2 d.
Proof.
  intros Hl2. induction l1 as [|x l1 IH]; [done|].
  cbn [app]. destruct (l1 ++ l2) as [|y l] eqn:Happ.
  - by apply app_eq_nil in Happ as [_ ->].
  - done.
Qed.

Lemma with_suffix_ok p sfx :
  name p ≠ "" → ∃ q, with_suffix p sfx = Ok q.
Proof.
  intros Hname. unfold with_suffix.
  destruct (String.eqb (name p) "") eqn:Heq; [|by eexists].
  by apply String.eqb_eq in Heq.
Qed.

Lemma out_dir : of_str OUTDIR = mkPath NoRoot [".out"].
Proof. reflexivity. Qed.

(** Whatever is joined below the output directory has a name. *)
Lemma name_under_out d s :
  (is_absolute (of_str s) = true → names (of_str s) ≠ []) →
  name (d </> of_str OUTDIR </> of_str s) ≠ "".
Proof.
  intros Hproper. pose proof (of_str_names_nonempty s) as Hall.
  destruct (is_absolute (of_str s)) eqn:Habs.
  - unfold join at 1. rewrite Habs. unfold name.
    apply last_nonempty; [by apply Hproper|done].
  - rewrite (join_relative _ (of_str s)) by done.
    rewrite out_dir, join_relative by done. unfold name. cbn [names].
    destruct (names (of_str s)) as [|x l] eqn:Hnames.
    + rewrite app_nil_r, last_last. done.
    + rewrite last_app_nonempty by done. by apply last_nonempty.
Qed.

Lemma no_sep_relative x : no_sep x = true → is_absolute (of_str x) = false.
Proof.
  destruct x as [|c x]; [done|]. cbn [no_sep]. intros [Hc _]%andb_true_iff.
  unfold is_absolute, of_str, splitroot. cbn.
  by destruct (Ascii.eqb c "/"%char).
Qed.

Lemma last_no_sep (l : list string) :
  forallb (λ x, kept x && no_sep x) l = true → no_sep (List.last l "") = true.
Proof.
  induction l as [|x l IH]; [done|]. cbn [forallb].
  intros [[_ Hx]%andb_true_iff Hl]%andb_true_iff.
  destruct l as [|y l]; [done|]. by apply IH.
Qed.

Lemma prefix_to_abs_path_ok repo p :
  valid_prefix p = true →
  prefix_to_abs_path repo p = Ok (mkPath (root repo) (names repo ++ names p)).
Proof.
  intros Hp. unfold prefix_to_abs_path.
  rewrite prefix_to_rel_path_valid by done. cbn [and_then].
  by rewrite join_relative.
Qed.

Lemma prefix_to_abs_out_name_ok repo p :
  normal repo = true → valid_prefix p = true → normal p = true →
  ∃ out, prefix_to_abs_out_name repo p = Ok out ∧ name out ≠ "".
Proof.
  intros Hrepo Hp Hnormal. unfold prefix_to_abs_out_name.
  rewrite prefix_to_abs_path_ok by done. cbn [and_then].
  eexists. split; [done|]. apply name_under_out. intros Habs.
  rewrite no_sep_relative in Habs; [done|].
  unfold name. cbn [names]. apply last_no_sep.
  unfold normal in *. rewrite forallb_app. by rewrite Hrepo, Hnormal.
Qed.

Lemma compile_srcs_ok repo toolchain rule_dir sources : ∀ objects log,
  forallb proper_source sources = true →
  ∃ result,
    (compile_srcs repo toolchain rule_dir (rule_dir </> of_str OUTDIR)
       sources objects log).1 = Ok result.
Proof.
  induction sources as [|src rest IH]; intros objects log Hall.
  - by eexists.
  - cbn [forallb] in Hall. apply andb_true_iff in Hall as [Hsrc Hall].
    cbn [compile_srcs]. rewrite run_bind.
    destruct (with_suffix_ok (rule_dir </> of_str OUTDIR </> of_str src) ".o")
      as [dot_o Hdot].
    { apply name_under_out. intros Habs Hnames. unfold proper_source in Hsrc.
      rewrite Habs, bool_decide_eq_true_2 in Hsrc; done. }
    rewrite Hdot, run_lift_ok, run_bind, run_cmd_run. by apply IH.
Qed.

Lemma dep_archives_ok repo dependencies : ∀ objects,
  normal repo = true →
  forallb (λ dep, valid_prefix dep && normal dep) dependencies = true →
  ∃ result, dep_archives repo dependencies objects = Ok result.
Proof.
  induction dependencies as [|dep rest IH]; intros objects Hrepo Hall.
  - by eexists.
  - cbn [forallb] in Hall.
    apply andb_true_iff in Hall as [[Hp Hn]%andb_true_iff Hall].
    cbn [dep_archives].
    destruct (prefix_to_abs_out_name_ok repo dep Hrepo Hp Hn)
      as (out & -> & Hname). cbn [and_then].
    destruct (with_suffix_ok out ".a" Hname) as [dot_a ->]. cbn [and_then].
    by apply IH.
Qed.

(** On a buildable target [do_cpp] raises nothing. *)
Lemma do_cpp_completes repo toolchain name props log :
  buildable repo name props = true →
  (do_cpp repo toolchain name props log).1 = Ok tt.
Proof.
  unfold buildable. rewrite !andb_true_iff.
  intros ((((Hrepo & Hp) & Hn) & Hsrcs) & Hdeps). unfold do_cpp.
  rewrite prefix_to_abs_path_ok by done.
  rewrite run_bind, run_lift_ok, run_bind, run_emit, run_bind.
  set (abs_path := mkPath (root repo) (names repo ++ names name)).
  destruct (compile_srcs_ok repo toolchain (parent abs_path)
              (default [] (srcs props)) [] (log ++ [Mkdir (parent abs_path </> of_str OUTDIR)])
              Hsrcs) as [objects Hcompile].
  destruct (compile_srcs _ _ _ _ _ _ _) as [[objects'|e] log1];
    cbn in Hcompile; [|done]. injection Hcompile as ->.
  destruct (dep_archives_ok repo (elements (deps props)) objects Hrepo Hdeps)
    as [all Hall].
  rewrite run_bind, Hall, run_lift_ok.
  destruct (prefix_to_abs_out_name_ok repo name Hrepo Hp Hn)
    as (out & Hout & Hname).
  rewrite run_bind, Hout, run_lift_ok.
  destruct (default false (main props)); [by rewrite run_cmd_run|].
  destruct (with_suffix_ok out ".a" Hname) as [dot_a Hdot].
  by rewrite run_bind, Hdot, run_lift_ok, run_cmd_run.
Qed.

(** ** A scheduler that makes no progress *)

(** A pass that completes nothing has run nothing. *)
Lemma sched_pass_stalled repo toolchain items : ∀ done_targets log log',
  sched_pass repo toolchain items done_targets log = (Ok done_targets, log') →
  log' = log.
Proof.
  induction items as [|[target props] rest IH]; intros done_targets log log' Hrun.
  - cbn in Hrun. by injection Hrun as <-.
  - cbn [sched_pass] in Hrun.
    destruct (ready done_targets target props) eqn:Hready; [|by eapply IH].
    apply ready_spec in Hready as [_ Hnew]. exfalso.
    apply bind_ok_inv in Hrun as ([] & log1 & _ & Hrun).
    apply bind_ok_inv in Hrun as ([] & log2 & _ & Hrun).
    destruct (sched_pass_run repo toolchain rest rest (λ _ H, H)
                ({[target]} ∪ done_targets) log2) as (ext & _ & _ & Hok).
    rewrite Hrun in Hok. destruct (Hok done_targets eq_refl) as [Heq _].
    set_solver.
Qed.

(** Once a pass completes nothing while a target is pending, every
    further test of the loop condition finds the same state. *)
Lemma schedule_stuck repo toolchain graph universe done_targets log :
  universe ≠ done_targets →
  sched_pass repo toolchain graph done_targets log = (Ok done_targets, log) →
  ∀ fuel,
    schedule repo toolchain fuel graph universe done_targets log
    = (Running done_targets, log).
Proof.
  intros Hne Hpass. induction fuel as [|n IH]; [done|].
  cbn [schedule]. rewrite decide_True by done. by rewrite Hpass.
Qed.

(** C3, as the code has it. When a full pass completes none of the
    pending targets, nothing has been run, the loop is in the state it
    was in before the pass, and it is still running after any number of
    further passes: no error is raised. In particular two targets each
    depending on the other are never run and the loop never ends. *)
Theorem stalled_scheduler_loops_forever
    (repo : PurePath) (toolchain : list event → list string → Z) :
  (∀ graph universe done_targets log done_targets' log',
     universe ≠ done_targets →
     sched_pass repo toolchain graph done_targets log = (Ok done_targets', log') →
     done_targets' = done_targets →
     log' = log
     ∧ ∀ fuel, schedule repo toolchain fuel graph universe done_targets log
               = (Running done_targets, log))
  ∧ (∀ a b props_a props_b,
       b ∈ deps props_a → a ∈ deps props_b →
       ∀ fuel,
         schedule repo toolchain fuel [(a, props_a); (b, props_b)]
           (keys [(a, props_a); (b, props_b)]) ∅ []
         = (Running ∅, [])).
Proof.
  split.
  - intros graph universe done_targets log done_targets' log' Hne Hpass ->.
    pose proof (sched_pass_stalled _ _ _ _ _ _ Hpass) as ->.
    split; [done|]. by apply schedule_stuck.
  - intros a b props_a props_b Hab Hba. apply schedule_stuck.
    + unfold keys. cbn. set_solver.
    + cbn [sched_pass].
      assert (ready ∅ a props_a = false) as ->.
      { apply not_true_iff_false. rewrite ready_spec. set_solver. }
      assert (ready ∅ b props_b = false) as ->.
      { apply not_true_iff_false. rewrite ready_spec. set_solver. }
      done.
Qed.

Lemma stalled_scheduler_loops_forever_witness :
  schedule (of_str "/home/dev/repo") toolchain_ok 7
    [(of_str "//cyc/a", mkProps None None None {[of_str "//cyc/b"]});
     (of_str "//cyc/b", mkProps None None None {[of_str "//cyc/a"]})]
    (keys [(of_str "//cyc/a", mkProps None None None {[of_str "//cyc/b"]});
           (of_str "//cyc/b", mkProps None None None {[of_str "//cyc/a"]})])
    ∅ []
  = (Running ∅, []).
Proof.
  apply (proj2 (stalled_scheduler_loops_forever (of_str "/home/dev/repo")
                  toolchain_ok)); cbn; set_solver.
Defined.

(** ** More fuel changes nothing once a loop has stopped *)

Lemma repo_walk_mono path_exists : ∀ k d r fuel,
  repo_walk path_exists k d = Returned r → k ≤ fuel →
  repo_walk path_exists fuel d = Returned r.
Proof.
  induction k as [|k IH]; intros d r fuel Hk Hle; [done|].
  destruct fuel as [|n]; [lia|]. cbn [repo_walk] in *.
  destruct (path_exists _); [done|]. apply IH; [done|lia].
Qed.

Lemma repo_walk_never_raises path_exists : ∀ fuel d e,
  repo_walk path_exists fuel d ≠ Raised e.
Proof.
  induction fuel as [|n IH]; intros d e; [done|]. cbn [repo_walk].
  destruct (path_exists _); [done|]. apply IH.
Qed.

Lemma discover_mono repo rule_files : ∀ k size st log o log' fuel,
  discover repo rule_files k size st log = (o, log') →
  (∀ s, o ≠ Running s) → k ≤ fuel →
  discover repo rule_files fuel size st log = (o, log').
Proof.
  induction k as [|k IH]; intros size st log o log' fuel Hk Hstop Hle.
  - cbn in Hk. injection Hk as <- <-. by destruct (Hstop st).
  - destruct fuel as [|n]; [lia|]. cbn [discover] in *.
    destruct (decide _); [|done].
    destruct (scan_items _ _ _ _ _ _ _) as [[[[nd ld] sn]|e] log1]; [|done].
    apply IH; [done|done|lia].
Qed.

(** The script hangs as soon as its scheduling loop does. *)
Lemma xmake_hangs cwd path_exists rule_files toolchain k repo st0 log0 st log :
  repo_abs_path cwd path_exists k = Returned repo →
  start repo cwd rule_files [] = (Ok st0, log0) →
  discover repo rule_files k 0 st0 log0 = (Returned st, log) →
  (∀ fuel, ∃ d,
     (schedule repo toolchain fuel (prop_dict st) (targets st) ∅ log).1
     = Running d) →
  hangs (λ fuel, (xmake cwd path_exists rule_files toolchain fuel).1).
Proof.
  intros Hrepo Hstart Hdiscover Hsched fuel. unfold xmake.
  destruct (repo_abs_path cwd path_exists fuel) as [d|repo'|e] eqn:Hwalk.
  - by eexists.
  - assert (repo' = repo) as ->.
    { unfold repo_abs_path in *. destruct (decide (fuel ≤ k)) as [Hle|Hgt].
      - pose proof (repo_walk_mono _ _ _ _ _ Hwalk Hle). congruence.
      - pose proof (repo_walk_mono _ _ _ _ fuel Hrepo ltac:(lia)). congruence. }
    unfold build. rewrite Hstart.
    destruct (discover repo rule_files fuel 0 st0 log0) as [o log1] eqn:Hd.
    assert ((∃ s, o = Running s) ∨ (o, log1) = (Returned st, log)) as [[s ->]|Heq].
    { destruct (decide (fuel ≤ k)) as [Hle|Hgt].
      - destruct o as [s|s|e]; [by eauto| |]; right.
        + rewrite <- Hdiscover. symmetry.
          eapply discover_mono; [exact Hd|done|done].
        + rewrite <- Hdiscover. symmetry.
          eapply discover_mono; [exact Hd|done|done].
      - right. rewrite <- Hd. apply discover_mono with k; [done|done|lia]. }
    + by eexists.
    + injection Heq as -> ->. apply Hsched.
  - by apply repo_walk_never_raises in Hwalk.
Qed.

(** C3, counterexample to the claim as stated: run in the directory
    [cyc] of the sample repository, whose two targets depend on each
    other, the script raises nothing; it is still running after any
    number of iterations of its loops. *)
Lemma mutual_dependency_hangs :
  hangs (λ fuel, (xmake (of_str "/home/dev/repo/cyc") sample_marker
                    sample_rules toolchain_ok fuel).1).
Proof.
  apply (xmake_hangs _ _ _ _ 2 (of_str "/home/dev/repo")
           (mkDiscovery sample_cyc_graph {[of_str "//cyc"]} ∅)
           [Loading (of_str "//cyc")]
           (mkDiscovery sample_cyc_graph {[of_str "//cyc"]} (keys sample_cyc_graph))
           [Loading (of_str "//cyc")]).
  - vm_compute. reflexivity.
  - vm_compute. reflexivity.
  - vm_compute. reflexivity.
  - intros fuel. exists ∅. cbn [prop_dict targets].
    rewrite schedule_stuck; [done| |].
    + apply (bool_decide_unpack _). vm_compute. exact I.
    + vm_compute. reflexivity.
Qed.

(** ** A dependency that is no target *)

Lemma dict_unique {V} (d : dict V) k v1 v2 :
  NoDup d.*1 → (k, v1) ∈ d → (k, v2) ∈ d → v1 = v2.
Proof.
  induction d as [|[k' v'] d IH]; intros Hnd H1 H2.
  - by apply elem_of_nil in H1.
  - cbn in Hnd. apply NoDup_cons in Hnd as [Hnotin Hnd].
    assert (∀ v, (k', v) ∈ d → False) as Hfresh.
    { intros v Hv. apply Hnotin. apply list_elem_of_fmap. by exists (k', v). }
    apply elem_of_cons in H1 as [H1|H1]; apply elem_of_cons in H2 as [H2|H2].
    + congruence.
    + injection H1 as -> ->. by destruct (Hfresh v2).
    + injection H2 as -> ->. by destruct (Hfresh v1).
    + by apply IH.
Qed.

Lemma sched_pass_completes repo toolchain graph items :
  (∀ item, item ∈ items → item ∈ graph) →
  driver_completes repo toolchain graph →
  ∀ done_targets log,
    ∃ d, (sched_pass repo toolchain items done_targets log).1 = Ok d.
Proof.
  intros Hsub Hdriver.
  induction items as [|[target props] rest IH]; intros done_targets log.
  - by eexists.
  - assert (∀ item, item ∈ rest → item ∈ graph) as Hrest
      by (intros item Hitem; apply Hsub; by right).
    cbn [sched_pass]. destruct (ready done_targets target props); [|by apply IH].
    rewrite run_bind, run_emit, run_bind.
    pose proof (Hdriver target props (log ++ [Doing target])
                  (Hsub _ ltac:(by left))) as Hok.
    destruct (do_cpp _ _ _ _ _) as [[[]|e] log1]; [|done]. by apply IH.
Qed.

Lemma schedule_never_raises repo toolchain graph universe :
  driver_completes repo toolchain graph →
  ∀ fuel done_targets log e,
    (schedule repo toolchain fuel graph universe done_targets log).1 ≠ Raised e.
Proof.
  intros Hdriver. induction fuel as [|n IH]; intros done_targets log e; [done|].
  cbn [schedule]. destruct (decide _); [|done].
  destruct (sched_pass_completes repo toolchain graph graph (λ _ H, H) Hdriver
              done_targets log) as [d Hd].
  destruct (sched_pass _ _ _ _ _) as [[d'|e'] log1]; [|done]. apply IH.
Qed.

(** A target with a dependency outside the graph is never run, and the
    loop never returns. *)
Lemma undefined_dep_blocks repo toolchain graph target props dep fuel log :
  NoDup graph.*1 → (target, props) ∈ graph → dep ∈ deps props →
  dep ∉ keys graph → executed log = [] →
  (∀ d, (schedule repo toolchain fuel graph (keys graph) ∅ log).1 ≠ Returned d)
  ∧ target ∉ executed (schedule repo toolchain fuel graph (keys graph) ∅ log).2.
Proof.
  intros Hnd Hin Hdep Hundef Hlog.
  destruct (schedule_run repo toolchain graph (keys graph) fuel ∅ log)
    as (ext & Hext & Hturn & Hout).
  assert (target ∉ executed ext) as Hnever.
  { intros (before & after & Hsplit)%list_elem_of_split.
    pose proof Hturn as Hturn'. rewrite Hsplit in Hturn'.
    apply run_in_turn_split in Hturn' as (props' & Hin' & Hdeps').
    rewrite (dict_unique graph target props' props Hnd Hin' Hin) in Hdeps'.
    apply run_in_turn_fresh in Hturn as (_ & _ & Hkeys).
    apply Hundef, Hkeys. rewrite Hsplit. apply elem_of_app. left.
    apply Hdeps' in Hdep. set_solver. }
  split.
  - intros d Hd. rewrite Hd in Hout. destruct Hout as [-> Hall].
    apply Hnever. assert (target ∈ keys graph) as Hk.
    { unfold keys. apply elem_of_list_to_set, list_elem_of_fmap.
      by exists (target, props). }
    rewrite <- Hall in Hk. set_solver.
  - by rewrite Hext, executed_app, Hlog.
Qed.

(** C5, as the code has it. When a target of the graph has a dependency
    that is no target of the graph, the scheduling loop never returns
    and raises no error for it: the referencing target is never run,
    and as long as the toolchain driver raises nothing the loop is
    still running after any number of passes. *)
Theorem undefined_dependency_is_never_reported
    (repo : PurePath) (toolchain : list event → list string → Z)
    (graph : dict Props) (target : PurePath) (props : Props) (dep : PurePath)
    (fuel : nat) :
  NoDup graph.*1 → (target, props) ∈ graph → dep ∈ deps props →
  dep ∉ keys graph →
  (∀ d, (schedule repo toolchain fuel graph (keys graph) ∅ []).1 ≠ Returned d)
  ∧ (target
     ∉ executed (schedule repo toolchain fuel graph (keys graph) ∅ []).2)
  ∧ (driver_completes repo toolchain graph →
     ∃ d, (schedule repo toolchain fuel graph (keys graph) ∅ []).1 = Running d).
Proof.
  intros Hnd Hin Hdep Hundef.
  destruct (undefined_dep_blocks repo toolchain graph target props dep fuel []
              Hnd Hin Hdep Hundef eq_refl) as [Hret Hnever].
  split; [done|]. split; [done|]. intros Hdriver.
  pose proof (schedule_never_raises repo toolchain graph (keys graph) Hdriver
                fuel ∅ []) as Hraise.
  destruct (schedule _ _ _ _ _ _ _).1 as [d|d|e]; [by eexists| |].
  - by destruct (Hret d).
  - by destruct (Hraise e).
Qed.

Lemma sample_x_graph_buildable :
  driver_completes (of_str "/home/dev/repo") toolchain_ok sample_x_graph.
Proof.
  intros target props log Hin. apply do_cpp_completes.
  unfold sample_x_graph in Hin.
  repeat (apply elem_of_cons in Hin as [[= -> ->]|Hin]; [by vm_compute|]).
  by apply elem_of_nil in Hin.
Qed.

Lemma undefined_dependency_is_never_reported_witness :
  (∀ d, (schedule (of_str "/home/dev/repo") toolchain_ok 5 sample_x_graph
           (keys sample_x_graph) ∅ []).1 ≠ Returned d)
  ∧ of_str "//x/x"
    ∉ executed (schedule (of_str "/home/dev/repo") toolchain_ok 5 sample_x_graph
                  (keys sample_x_graph) ∅ []).2.
Proof.
  destruct (undefined_dependency_is_never_reported (of_str "/home/dev/repo")
              toolchain_ok sample_x_graph (of_str "//x/x")
              (mkProps (Some ["x.cc"]) None None {[of_str "//y/missing"]})
              (of_str "//y/missing") 5) as (Hret & Hnever & _).
  - apply (bool_decide_unpack _). vm_compute. exact I.
  - apply (bool_decide_unpack _). vm_compute. exact I.
  - apply (bool_decide_unpack _). vm_compute. exact I.
  - apply (bool_decide_unpack _). vm_compute. exact I.
  - split; [exact Hret|exact Hnever].
Defined.

(** C5, counterexample to the claim as stated: run in the directory
    [x] of the sample repository, whose target depends on a target that
    the rule file of [y] does not define, the script raises nothing; it
    builds the one target of [y] and is then still running after any
    number of iterations of its loops. *)
Lemma undefined_dependency_hangs :
  hangs (λ fuel, (xmake (of_str "/home/dev/repo/x") sample_marker
                    sample_rules toolchain_ok fuel).1)
  ∧ executed (xmake (of_str "/home/dev/repo/x") sample_marker
                sample_rules toolchain_ok 9).2
    = [of_str "//y/other"].
Proof.
  split; [|vm_compute; reflexivity].
  apply (xmake_hangs _ _ _ _ 3 (of_str "/home/dev/repo")
           (mkDiscovery [(of_str "//x/x",
                          mkProps (Some ["x.cc"]) None None {[of_str "//y/missing"]})]
              {[of_str "//x"]} ∅)
           [Loading (of_str "//x")]
           (mkDiscovery sample_x_graph {[of_str "//x"; of_str "//y"]}
              (keys sample_x_graph))
           [Loading (of_str "//x"); Loading (of_str "//y")]).
  - vm_compute. reflexivity.
  - vm_compute. reflexivity.
  - vm_compute. reflexivity.
  - intros fuel. cbn [prop_dict targets].
    destruct (undefined_dep_blocks (of_str "/home/dev/repo") toolchain_ok
                sample_x_graph (of_str "//x/x")
                (mkProps (Some ["x.cc"]) None None {[of_str "//y/missing"]})
                (of_str "//y/missing") fuel
                [Loading (of_str "//x"); Loading (of_str "//y")])
      as [Hret _]; try (apply (bool_decide_unpack _); vm_compute; exact I).
    pose proof (schedule_never_raises (of_str "/home/dev/repo") toolchain_ok
                  sample_x_graph (keys sample_x_graph) sample_x_graph_buildable
                  fuel ∅ [Loading (of_str "//x"); Loading (of_str "//y")])
      as Hraise.
    destruct (schedule _ _ _ _ _ _ _).1 as [d|d|e]; [by eexists| |].
    + by destruct (Hret d).
    + by destruct (Hraise e).
Qed.

(** C4, counterexample to the claim as stated: with a toolchain every
    subprocess of which exits with status 1, the build of the sample
    executable and its library goes on after each failed command and
    ends normally with both targets complete. *)
Lemma failed_commands_do_not_stop_the_build :
  xmake (of_str "/home/dev/repo/app") sample_marker sample_rules
    toolchain_failing 4
  = (Returned {[of_str "//app/main"; of_str "//lib/core"]},
     [Loading (of_str "//app"); Loading (of_str "//lib");
      Doing (of_str "//lib/core");
      Mkdir (of_str "/home/dev/repo/lib/.out");
      Echo "clang++ -O3 -std=c++20 -I/home/dev/repo -c /home/dev/repo/lib/a.cc -o /home/dev/repo/lib/.out/a.o";
      Spawn ["clang++"; "-O3"; "-std=c++20"; "-I/home/dev/repo"; "-c";
             "/home/dev/repo/lib/a.cc"; "-o"; "/home/dev/repo/lib/.out/a.o"] 1;
      Echo "ar rcsuUPT /home/dev/repo/lib/.out/core.a /home/dev/repo/lib/.out/a.o";
      Spawn ["ar"; "rcsuUPT"; "/home/dev/repo/lib/.out/core.a";
             "/home/dev/repo/lib/.out/a.o"] 1;
      Doing (of_str "//app/main");
      Mkdir (of_str "/home/dev/repo/app/.out");
      Echo "clang++ -O3 -std=c++20 -I/home/dev/repo -c /home/dev/repo/app/main.cc -o /home/dev/repo/app/.out/main.o";
      Spawn ["clang++"; "-O3"; "-std=c++20"; "-I/home/dev/repo"; "-c";
             "/home/dev/repo/app/main.cc"; "-o"; "/home/dev/repo/app/.out/main.o"] 1;
      Echo "clang++ -pthread -o /home/dev/repo/app/.out/main /home/dev/repo/app/.out/main.o /home/dev/repo/lib/.out/core.a";
      Spawn ["clang++"; "-pthread"; "-o"; "/home/dev/repo/app/.out/main";
             "/home/dev/repo/app/.out/main.o"; "/home/dev/repo/lib/.out/core.a"] 1]).
Proof. vm_compute. reflexivity. Qed.

(** ** An acyclic graph always has a target that is ready *)

Section Chains.
Context {A : Type} `{EqDecision A} (R : relation A) (P : A → Prop).

(** Where every element with [P] has a successor with [P], there are
    chains of any length without repetition, unless there is a cycle. *)
Lemma long_chain :
  (∀ x, P x → ∃ y, R x y ∧ P y) →
  ∀ x0, P x0 →
  ∀ n, (∃ z, tc R z z)
       ∨ ∃ h l, length l = n ∧ NoDup (h :: l) ∧ Forall P (h :: l)
                ∧ Forall (λ y, tc R y h) l.
Proof.
  intros Hnext x0 Hx0. induction n as [|n IH].
  - right. exists x0, []. split; [done|]. split; [apply NoDup_singleton|].
    split; [by constructor|constructor].
  - destruct IH as [Hcycle|(h & l & Hlen & Hnd & HP & Hreach)]; [by left|].
    pose proof (Forall_inv HP) as Hh.
    destruct (Hnext h Hh) as (y & Hhy & Hy).
    destruct (decide (y ∈ h :: l)) as [Hin|Hout].
    + left. apply elem_of_cons in Hin as [->|Hin].
      * exists h. by apply tc_once.
      * exists y. eapply tc_r; [|exact Hhy].
        by eapply (proj1 (Forall_forall _ _) Hreach).
    + right. exists y, (h :: l). split; [by cbn; rewrite Hlen|].
      split; [by constructor|]. split; [by constructor|].
      constructor; [by apply tc_once|].
      eapply Forall_impl; [exact Hreach|]. intros z Hz.
      eapply tc_r; [exact Hz|exact Hhy].
Qed.

(** In a finite carrier that is impossible: there is a cycle. *)
Lemma no_sink_gives_cycle (carrier : list A) :
  (∀ x, P x → x ∈ carrier) →
  (∀ x, P x → ∃ y, R x y ∧ P y) →
  ∀ x0, P x0 → ∃ z, tc R z z.
Proof.
  intros Hfin Hnext x0 Hx0.
  destruct (long_chain Hnext x0 Hx0 (length carrier))
    as [Hcycle|(h & l & Hlen & Hnd & HP & _)]; [done|].
  exfalso. assert (h :: l ⊆+ carrier) as Hsub.
  { apply NoDup_submseteq; [done|]. intros x Hx. apply Hfin.
    by eapply (proj1 (Forall_forall _ _) HP). }
  apply submseteq_length in Hsub. cbn in Hsub. lia.
Qed.

End Chains.

Lemma elem_of_keys {V} (d : dict V) k : k ∈ keys d ↔ ∃ v, (k, v) ∈ d.
Proof.
  unfold keys. rewrite elem_of_list_to_set, list_elem_of_fmap. split.
  - intros ([k' v] & -> & Hin). by exists v.
  - intros (v & Hin). by exists (k, v).
Qed.

Lemma some_target_ready graph (done_targets : gset PurePath) :
  acyclic graph → deps_defined graph →
  done_targets ⊆ keys graph → done_targets ≠ keys graph →
  ∃ target props,
    (target, props) ∈ graph ∧ deps props ⊆ done_targets
    ∧ target ∉ done_targets.
Proof.
  intros Hacyclic Hdefined Hsub Hne.
  destruct (decide (Exists (λ item, deps item.2 ⊆ done_targets
                                    ∧ item.1 ∉ done_targets) graph))
    as [Hex|Hnone].
  { apply Exists_exists in Hex as ([t p] & Hin & Hdeps & Hnew). by exists t, p. }
  exfalso.
  assert (∃ x0, x0 ∈ keys graph ∧ x0 ∉ done_targets) as (x0 & Hx0).
  { destruct (set_choose_L (keys graph ∖ done_targets)) as [x Hx];
      [|exists x; set_solver].
    intros Hempty. apply Hne. apply (anti_symm (⊆)); [done|]. intros x Hx.
    destruct (decide (x ∈ done_targets)) as [|Hout]; [done|]. exfalso.
    assert (x ∈ keys graph ∖ done_targets) as Hx'
      by (by apply elem_of_difference).
    rewrite Hempty in Hx'. by apply elem_of_empty in Hx'. }
  destruct (no_sink_gives_cycle (depends graph)
              (λ t, t ∈ keys graph ∧ t ∉ done_targets) graph.*1) with x0
    as [z Hz]; [| |done|by apply (Hacyclic z)].
  - intros x [Hx _]. unfold keys in Hx. by apply elem_of_list_to_set in Hx.
  - intros x [Hx Hpending]. apply elem_of_keys in Hx as [props Hin].
    destruct (decide (set_Exists (λ dep, dep ∉ done_targets) (deps props)))
      as [(dep & Hdep & Hout)|Hall].
    + exists dep. assert (depends graph x dep) as Hd by (by exists props).
      split; [done|]. split; [by eapply Hdefined|done].
    + exfalso. apply Hnone. apply Exists_exists. exists (x, props).
      split; [done|]. split; [|done]. intros dep Hdep.
      destruct (decide (dep ∈ done_targets)) as [|Hout]; [done|].
      exfalso. apply Hall. by exists dep.
Qed.

(** With at most [n] targets pending, [n] passes and one more test of
    the loop condition complete the graph. *)
Lemma schedule_completes repo toolchain graph :
  acyclic graph → deps_defined graph → driver_completes repo toolchain graph →
  ∀ n done_targets log,
    done_targets ⊆ keys graph →
    size (keys graph ∖ done_targets) ≤ n →
    (schedule repo toolchain (S n) graph (keys graph) done_targets log).1
    = Returned (keys graph).
Proof.
  intros Hacyclic Hdefined Hdriver.
  induction n as [|n IH]; intros done_targets log Hsub Hsize.
  - cbn [schedule]. assert (keys graph = done_targets) as Heq.
    { assert (keys graph ∖ done_targets = ∅) as Hempty
        by (apply leibniz_equiv, size_empty_iff; lia).
      apply (anti_symm (⊆)); [|done]. intros x Hx.
      destruct (decide (x ∈ done_targets)) as [|Hout]; [done|]. exfalso.
      assert (x ∈ keys graph ∖ done_targets) as Hx'
        by (by apply elem_of_difference).
      rewrite Hempty in Hx'. by apply elem_of_empty in Hx'. }
    rewrite decide_False by (by intros Hne). by rewrite Heq.
  - cbn [schedule].
    destruct (decide (keys graph ≠ done_targets)) as [Hne|Heq];
      [|apply dec_stable in Heq; by rewrite <- Heq].
    destruct (sched_pass_completes repo toolchain graph graph (λ _ H, H)
                Hdriver done_targets log) as [d1 Hd1].
    destruct (sched_pass_run repo toolchain graph graph (λ _ H, H)
                done_targets log) as (ext & _ & Hturn & Hok).
    destruct (Hok d1 Hd1) as [Hd Hcover].
    apply run_in_turn_fresh in Hturn as (_ & _ & Hkeys).
    destruct (some_target_ready graph done_targets Hacyclic Hdefined Hsub
                ltac:(congruence)) as (t & p & Hin & Hdeps & Hnew).
    pose proof (Hcover t p Hin Hdeps) as Ht.
    assert (t ∈ keys graph) as Htk by (apply elem_of_keys; by exists p).
    destruct (sched_pass _ _ _ _ _) as [[d1'|e] log1]; cbn in Hd1; [|done].
    injection Hd1 as ->.
    change (schedule repo toolchain (S n) graph (keys graph) d1 log1).1
      with ((schedule repo toolchain (S n) graph (keys graph) d1 log1).1).
    apply IH.
    + rewrite Hd. intros x [Hx|Hx]%elem_of_union; [|by apply Hsub].
      apply Hkeys. by apply elem_of_list_to_set in Hx.
    + assert (keys graph ∖ d1 ⊂ keys graph ∖ done_targets) as Hless.
      { split; [rewrite Hd; set_solver|]. intros Hback.
        assert (t ∈ keys graph ∖ d1) as Hbad by (apply Hback; set_solver).
        set_solver. }
      apply subset_size in Hless. lia.
Qed.

(** C1, as the code has it. For every acyclic graph all of whose
    dependencies are targets, provided the toolchain driver raises
    nothing on its targets (an exception of [do_cpp] ends the run), the
    scheduling loop
    returns after at most one pass per target with the completion set
    equal to the set of all targets; every target has been run exactly
    once, and each after all of its dependencies had been run and added
    to the completion set. *)
Theorem scheduler_completes_in_dependency_order
    (repo : PurePath) (toolchain : list event → list string → Z)
    (graph : dict Props) :
  NoDup graph.*1 → acyclic graph → deps_defined graph →
  driver_completes repo toolchain graph →
  ∃ log,
    schedule repo toolchain (S (length graph)) graph (keys graph) ∅ []
    = (Returned (keys graph), log)
    ∧ executed log ≡ₚ graph.*1
    ∧ run_in_turn graph ∅ (executed log)
    ∧ ∀ before target after dep,
        executed log = before ++ target :: after →
        depends graph target dep → dep ∈ before.
Proof.
  intros Hnd Hacyclic Hdefined Hdriver.
  assert ((schedule repo toolchain (S (length graph)) graph (keys graph) ∅ []).1
          = Returned (keys graph)) as Hret.
  { apply schedule_completes; [done|done|done|apply empty_subseteq|].
    rewrite difference_empty_L. unfold keys.
    rewrite size_list_to_set by done. by rewrite length_fmap. }
  destruct (schedule_run repo toolchain graph (keys graph) (S (length graph))
              ∅ []) as (ext & Hlog & Hturn & Hout).
  destruct (schedule repo toolchain (S (length graph)) graph (keys graph) ∅ [])
    as [o log] eqn:Hrun.
  cbn in Hret, Hlog, Hout. subst o log. destruct Hout as [Hall _].
  exists ext. split; [done|]. split; [|split; [done|]].
  - pose proof (run_in_turn_fresh _ _ _ Hturn) as (Hnd' & _ & _).
    apply NoDup_Permutation; [done|done|]. intros x.
    assert (x ∈ keys graph ↔ x ∈ graph.*1) as <-
      by (unfold keys; apply elem_of_list_to_set).
    rewrite Hall, elem_of_union, elem_of_list_to_set. split; [by left|].
    intros [Hx|Hx]; [done|by apply elem_of_empty in Hx].
  - intros before target after dep Hsplit (props & Hin & Hdep).
    rewrite Hsplit in Hturn.
    apply run_in_turn_split in Hturn as (props' & Hin' & Hdeps').
    rewrite (dict_unique graph target props' props Hnd Hin' Hin) in Hdeps'.
    apply Hdeps' in Hdep.
    apply elem_of_union in Hdep as [Hdep|Hdep];
      [by apply elem_of_list_to_set in Hdep|by apply elem_of_empty in Hdep].
Qed.

(** A graph whose dependencies go down along a rank has no cycle. *)
Lemma acyclic_by_rank graph (rank : PurePath → nat) :
  (∀ target dep, depends graph target dep → rank dep < rank target) →
  acyclic graph.
Proof.
  intros Hrank target Hcycle.
  assert (∀ x y, tc (depends graph) x y → rank y < rank x) as Hdown.
  { intros x y Hxy. induction Hxy as [x y Hxy|x y z Hxy _ IH].
    - by apply Hrank.
    - apply Hrank in Hxy. lia. }
  apply Hdown in Hcycle. lia.
Qed.

Lemma sample_app_graph_depends target dep :
  depends sample_app_graph target dep →
  target = of_str "//app/main" ∧ dep = of_str "//lib/core".
Proof.
  intros (props & Hin & Hdep). unfold sample_app_graph in Hin.
  apply elem_of_cons in Hin as [Hin|Hin].
  - injection Hin as -> ->. cbn [deps] in Hdep.
    by apply elem_of_singleton in Hdep as ->.
  - apply list_elem_of_singleton in Hin. injection Hin as -> ->.
    cbn [deps] in Hdep. by apply elem_of_empty in Hdep.
Qed.

Lemma sample_app_graph_buildable :
  driver_completes (of_str "/home/dev/repo") toolchain_ok sample_app_graph.
Proof.
  intros target props log Hin. apply do_cpp_completes.
  unfold sample_app_graph in Hin.
  repeat (apply elem_of_cons in Hin as [[= -> ->]|Hin]; [by vm_compute|]).
  by apply elem_of_nil in Hin.
Qed.

Lemma scheduler_completes_in_dependency_order_witness :
  ∃ log,
    schedule (of_str "/home/dev/repo") toolchain_ok
      (S (length sample_app_graph)) sample_app_graph (keys sample_app_graph) ∅ []
    = (Returned (keys sample_app_graph), log)
    ∧ executed log ≡ₚ sample_app_graph.*1
    ∧ run_in_turn sample_app_graph ∅ (executed log)
    ∧ ∀ before target after dep,
        executed log = before ++ target :: after →
        depends sample_app_graph target dep → dep ∈ before.
Proof.
  apply (scheduler_completes_in_dependency_order (of_str "/home/dev/repo")
           toolchain_ok sample_app_graph).
  - apply (bool_decide_unpack _). vm_compute. exact I.
  - apply (acyclic_by_rank _
             (λ p, if decide (p = of_str "//app/main") then 1 else 0)).
    intros target dep [-> ->]%sample_app_graph_depends. vm_compute. lia.
  - intros target dep [-> ->]%sample_app_graph_depends.
    apply (bool_decide_unpack _). vm_compute. exact I.
  - exact sample_app_graph_buildable.
Defined.

(** ** Further properties of the toolchain driver *)

(** For a target whose [main] flag is true, the last thing [do_cpp]
    does is to run the compiler in link mode, with the threading flag
    and the output path of the target without any suffix, on the object
    files compiled from the target's own sources followed by the
    archive of every one of its dependencies. *)
Theorem linker_gets_objects_and_dependency_archives
    (repo : PurePath) (toolchain : list event → list string → Z)
    (name : PurePath) (props : Props) (log log' : list event) :
  default false (main props) = true →
  do_cpp repo toolchain name props log = (Ok tt, log') →
  ∃ earlier out_name objects archives status,
    log' = earlier
           ++ [Spawn ([CC; PTHREAD; "-o"; str out_name] ++ objects ++ archives)
                 status]
    ∧ prefix_to_abs_out_name repo name = Ok out_name
    ∧ Forall2 (object_of repo name) (default [] (srcs props)) objects
    ∧ Forall2 (archive_of repo) (elements (deps props)) archives.
Proof.
  intros Hmain Hrun. unfold do_cpp in Hrun. rewrite Hmain in Hrun.
  apply bind_ok_inv in Hrun as (abs_path & log1 & Habs & Hrun).
  apply lift_ok_inv in Habs as [Habs ->].
  apply bind_ok_inv in Hrun as ([] & log2 & _ & Hrun).
  apply bind_ok_inv in Hrun as (objects & log3 & Hcompile & Hrun).
  apply compile_srcs_objects in Hcompile as (own & -> & Hown).
  apply bind_ok_inv in Hrun as (all & log4 & Hdeps & Hrun).
  apply lift_ok_inv in Hdeps as [Hdeps ->].
  apply dep_archives_objects in Hdeps as (archives & -> & Harchives).
  apply bind_ok_inv in Hrun as (out_name & log5 & Hout & Hrun).
  apply lift_ok_inv in Hout as [Hout ->].
  rewrite run_cmd_run in Hrun. injection Hrun as <-.
  exists (log3 ++ [Echo (String.concat " "
                     ([CC; PTHREAD; "-o"; str out_name] ++ [] ++ own ++ archives))]).
  exists out_name, own, archives. eexists. split; [|split; [|split]].
  - rewrite <- app_assoc. cbn [app]. reflexivity.
  - done.
  - eapply Forall2_impl; [exact Hown|]. intros src o (dot_o & Hsuffix & ->).
    by exists abs_path, dot_o.
  - done.
Qed.

Lemma linker_gets_objects_and_dependency_archives_witness :
  ∃ earlier out_name objects archives status,
    [Mkdir (of_str "/home/dev/repo/app/.out");
     Echo "clang++ -O3 -std=c++20 -I/home/dev/repo -c /home/dev/repo/app/main.cc -o /home/dev/repo/app/.out/main.o";
     Spawn ["clang++"; "-O3"; "-std=c++20"; "-I/home/dev/repo"; "-c";
            "/home/dev/repo/app/main.cc"; "-o"; "/home/dev/repo/app/.out/main.o"] 0;
     Echo "clang++ -pthread -o /home/dev/repo/app/.out/main /home/dev/repo/app/.out/main.o /home/dev/repo/lib/.out/core.a";
     Spawn ["clang++"; "-pthread"; "-o"; "/home/dev/repo/app/.out/main";
            "/home/dev/repo/app/.out/main.o"; "/home/dev/repo/lib/.out/core.a"] 0]
    = earlier
      ++ [Spawn ([CC; PTHREAD; "-o"; str out_name] ++ objects ++ archives) status]
    ∧ prefix_to_abs_out_name (of_str "/home/dev/repo") (of_str "//app/main")
      = Ok out_name
    ∧ Forall2 (object_of (of_str "/home/dev/repo") (of_str "//app/main"))
        (default [] (srcs (mkProps (Some ["main.cc"]) None (Some true)
                             {[of_str "//lib/core"]})))
        objects
    ∧ Forall2 (archive_of (of_str "/home/dev/repo"))
        (elements (deps (mkProps (Some ["main.cc"]) None (Some true)
                           {[of_str "//lib/core"]})))
        archives.
Proof.
  refine (linker_gets_objects_and_dependency_archives
            (of_str "/home/dev/repo") toolchain_ok (of_str "//app/main")
            (mkProps (Some ["main.cc"]) None (Some true) {[of_str "//lib/core"]})
            [] _ _ _).
  - reflexivity.
  - vm_compute. reflexivity.
Defined.



(** ** Further properties of the scheduler *)

(** A pass that ends normally only adds targets of the graph to the
    completion set, and it completes every target whose dependencies
    were complete when the pass began: in particular every target
    without dependencies is complete after the first pass. *)
Theorem pass_completes_every_ready_target
    (repo : PurePath) (toolchain : list event → list string → Z)
    (graph : dict Props) (done_targets done_targets' : gset PurePath)
    (log log' : list event) :
  sched_pass repo toolchain graph done_targets log = (Ok done_targets', log') →
  done_targets ⊆ done_targets'
  ∧ done_targets' ⊆ done_targets ∪ keys graph
  ∧ (∀ target props, (target, props) ∈ graph →
       deps props ⊆ done_targets → target ∈ done_targets')
  ∧ (∀ target props, (target, props) ∈ graph →
       deps props = ∅ → target ∈ done_targets').
Proof.
  intros Hrun.
  destruct (sched_pass_run repo toolchain graph graph (λ _ H, H)
              done_targets log) as (ext & _ & Hturn & Hok).
  rewrite Hrun in Hok. destruct (Hok done_targets' eq_refl) as [-> Hcover].
  apply run_in_turn_fresh in Hturn as (_ & _ & Hkeys).
  split; [apply union_subseteq_r|]. split; [|split].
  - intros x [Hx|Hx]%elem_of_union; apply elem_of_union; [right|by left].
    apply Hkeys. by apply elem_of_list_to_set in Hx.
  - done.
  - intros target props Hin Hnone. apply (Hcover target props Hin).
    rewrite Hnone. apply empty_subseteq.
Qed.

Lemma pass_completes_every_ready_target_witness :
  (∅ : gset PurePath) ⊆ {[of_str "//lib/core"]}
  ∧ {[of_str "//lib/core"]} ⊆ ∅ ∪ keys sample_app_graph
  ∧ (∀ target props, (target, props) ∈ sample_app_graph →
       deps props ⊆ ∅ → target ∈ ({[of_str "//lib/core"]} : gset PurePath))
  ∧ (∀ target props, (target, props) ∈ sample_app_graph →
       deps props = ∅ → target ∈ ({[of_str "//lib/core"]} : gset PurePath)).
Proof.
  refine (pass_completes_every_ready_target (of_str "/home/dev/repo")
            toolchain_ok sample_app_graph ∅ {[of_str "//lib/core"]} []
            [Doing (of_str "//lib/core");
             Mkdir (of_str "/home/dev/repo/lib/.out");
             Echo "clang++ -O3 -std=c++20 -I/home/dev/repo -c /home/dev/repo/lib/a.cc -o /home/dev/repo/lib/.out/a.o";
             Spawn ["clang++"; "-O3"; "-std=c++20"; "-I/home/dev/repo"; "-c";
                    "/home/dev/repo/lib/a.cc"; "-o"; "/home/dev/repo/lib/.out/a.o"] 0;
             Echo "ar rcsuUPT /home/dev/repo/lib/.out/core.a /home/dev/repo/lib/.out/a.o";
             Spawn ["ar"; "rcsuUPT"; "/home/dev/repo/lib/.out/core.a";
                    "/home/dev/repo/lib/.out/a.o"] 0] _).
  vm_compute. reflexivity.
Defined.

(** Within one pass the targets are run in the order in which the
    dictionary holds them: the targets a pass announces, whether it
    ends normally or is cut short by an exception, are a subsequence of
    the keys of its items. *)
Theorem pass_runs_targets_in_dictionary_order
    (repo : PurePath) (toolchain : list event → list string → Z)
    (items : dict Props) (done_targets : gset PurePath) (log : list event) :
  ∃ ext,
    (sched_pass repo toolchain items done_targets log).2 = log ++ ext
    ∧ sublist (executed ext) items.*1.
Proof.
  revert done_targets log.
  induction items as [|[target props] rest IH]; intros done_targets log.
  - exists []. cbn. by rewrite app_nil_r.
  - cbn [sched_pass]. destruct (ready done_targets target props).
    + rewrite run_bind, run_emit, run_bind.
      destruct (silent_do_cpp repo toolchain target props (log ++ [Doing target]))
        as (ext1 & Hlog1 & Hquiet1).
      destruct (do_cpp repo toolchain target props (log ++ [Doing target]))
        as [[[]|e] log1]; cbn in Hlog1; subst log1.
      * destruct (IH ({[target]} ∪ done_targets)
                    ((log ++ [Doing target]) ++ ext1)) as (ext2 & Hlog2 & Hsub).
        exists ([Doing target] ++ ext1 ++ ext2).
        rewrite Hlog2, !executed_app, Hquiet1. cbn [executed omap app fmap list_fmap fst].
        split; [by rewrite <- !app_assoc|]. by apply sublist_skip.
      * exists ([Doing target] ++ ext1).
        rewrite !executed_app, Hquiet1. cbn [executed omap app fmap list_fmap fst snd].
        split; [by rewrite <- !app_assoc|].
        apply sublist_skip, sublist_nil_l.
    + destruct (IH done_targets log) as (ext & Hlog & Hsub).
      exists ext. split; [done|]. cbn [fmap list_fmap]. by apply sublist_cons.
Qed.

(** ** Further properties of the loader *)

Lemma elem_of_dict_set {V} (d : dict V) k v k' v' :
  (k', v') ∈ dict_set k v d → (k', v') = (k, v) ∨ (k', v') ∈ d.
Proof.
  induction d as [|[k0 v0] d IH]; cbn.
  - intros Hin%list_elem_of_singleton. by left.
  - destruct (decide (k0 = k)) as [->|Hne].
    + intros [Hin|Hin]%elem_of_cons; [by left|]. right. by right.
    + intros [Hin|Hin]%elem_of_cons; [right; rewrite Hin; by left|].
      apply IH in Hin as [Hin|Hin]; [by left|]. right. by right.
Qed.

Lemma load_rules_deps_absolute prefix rules : ∀ prop_dict,
  is_absolute prefix = true →
  (∀ k props dep, (k, props) ∈ prop_dict → dep ∈ deps props →
                  is_absolute dep = true) →
  ∀ k props dep,
    (k, props) ∈ foldl (load_rule prefix) prop_dict rules →
    dep ∈ deps props → is_absolute dep = true.
Proof.
  induction rules as [|[name raw] rules IH]; intros prop_dict Habs Hold; [done|].
  cbn [foldl]. apply IH; [done|]. intros k props dep Hin Hdep.
  unfold load_rule in Hin. apply elem_of_dict_set in Hin as [Hin|Hin].
  - injection Hin as -> ->. cbn [deps] in Hdep. unfold canonical_deps in Hdep.
    apply elem_of_list_to_set, list_elem_of_fmap in Hdep as (dep_path & -> & _).
    by apply canonical_dep_absolute.
  - by eapply Hold.
Qed.

(** Every dependency in a loaded rule file carries a root: after
    [load_prefix] no record holds a bare relative reference. *)
Theorem loaded_dependencies_are_absolute
    (repo : PurePath) (rule_files : PurePath → option (list (string * RawProps)))
    (prefix : PurePath) (log log' : list event) (loaded : dict Props) :
  load_prefix repo rule_files prefix log = (Ok loaded, log') →
  ∀ k props dep,
    (k, props) ∈ loaded → dep ∈ deps props → is_absolute dep = true.
Proof.
  intros Hrun. unfold load_prefix in Hrun.
  apply bind_ok_inv in Hrun as ([] & log1 & _ & Hrun).
  apply bind_ok_inv in Hrun as (rel_path & log2 & Hrel & Hrun).
  apply lift_ok_inv in Hrel as [Hrel ->].
  assert (is_absolute prefix = true) as Habs.
  { destruct (valid_prefix prefix) eqn:Hp.
    - apply valid_prefix_root in Hp. unfold is_absolute. by rewrite Hp.
    - rewrite prefix_to_rel_path_invalid in Hrel; done. }
  destruct (rule_files _) as [rules|]; [|done].
  rewrite run_ret in Hrun. injection Hrun as <- <-.
  apply load_rules_deps_absolute; [done|].
  intros k props dep Hin. by apply elem_of_nil in Hin.
Qed.

Lemma loaded_dependencies_are_absolute_witness :
  load_prefix (of_str "/home/dev/repo")
    (λ _, Some [("main", mkRaw (Some ["main.cc"]) None (Some true)
                           (Some ["//lib/core"; "util"]))])
    (of_str "//app") []
  = (Ok [(of_str "//app/main",
          mkProps (Some ["main.cc"]) None (Some true)
            {[of_str "//lib/core"; of_str "//app/util"]})],
     [Loading (of_str "//app")])
  ∧ is_absolute (of_str "//app/util") = true.
Proof.
  assert (load_prefix (of_str "/home/dev/repo")
            (λ _, Some [("main", mkRaw (Some ["main.cc"]) None (Some true)
                                   (Some ["//lib/core"; "util"]))])
            (of_str "//app") []
          = (Ok [(of_str "//app/main",
                  mkProps (Some ["main.cc"]) None (Some true)
                    {[of_str "//lib/core"; of_str "//app/util"]})],
             [Loading (of_str "//app")])) as Hrun
    by (vm_compute; reflexivity).
  split; [exact Hrun|].
  apply (loaded_dependencies_are_absolute _ _ _ _ _ _ Hrun
           (of_str "//app/main")
           (mkProps (Some ["main.cc"]) None (Some true)
              {[of_str "//lib/core"; of_str "//app/util"]})
           (of_str "//app/util")).
  - apply list_elem_of_singleton. reflexivity.
  - apply (bool_decide_unpack _). vm_compute. exact I.
Defined.

(** ** Further properties of the path functions *)

Lemma repo_walk_returned path_exists : ∀ fuel d r,
  repo_walk path_exists fuel d = Returned r →
  ∃ k, r = ancestor k d ∧ has_marker path_exists r = true.
Proof.
  induction fuel as [|n IH]; intros d r Hrun; [done|].
  cbn [repo_walk] in Hrun.
  destruct (path_exists (d </> of_str CONFIG)) eqn:Hmark.
  - injection Hrun as <-. by exists 0.
  - apply IH in Hrun as (k & -> & Hk). exists (S k).
    by rewrite ancestor_succ.
Qed.

Lemma take_length_take {A} (l : list A) m : take (length (take m l)) l = take m l.
Proof.
  rewrite length_take. destruct (Nat.min_spec m (length l)) as [[_ ->]|[Hle ->]];
    [done|]. by rewrite !take_ge by lia.
Qed.

(** Once [repo_abs_path] has returned a directory, that directory
    holds the marker, the working directory lies below it, and
    [curr_prefix] raises nothing: it gives a prefix under [//] that
    [prefix_to_abs_path] maps back to the working directory. *)
Theorem located_repository_gives_current_prefix
    (cwd : PurePath) (path_exists : PurePath → bool) (fuel : nat)
    (repo : PurePath) :
  repo_abs_path cwd path_exists fuel = Returned repo →
  has_marker path_exists repo = true
  ∧ ∃ here, curr_prefix repo cwd = Ok here
            ∧ valid_prefix here = true
            ∧ prefix_to_abs_path repo here = Ok cwd.
Proof.
  intros Hrun. apply repo_walk_returned in Hrun as (k & -> & Hmark).
  split; [done|].
  assert (∃ rel, relative_to cwd (ancestor k cwd) = Ok rel) as [rel Hrel].
  { rewrite ancestor_names. unfold relative_to. cbn [root names].
    rewrite bool_decide_eq_true_2; [by eexists|].
    split; [done|apply take_length_take]. }
  destruct (path_prefix_round_trip _ _ _ Hrel) as [Hvalid Hback].
  exists (rel_path_to_prefix rel). unfold curr_prefix, curr_rel_path.
  rewrite Hrel. done.
Qed.

Lemma located_repository_gives_current_prefix_witness :
  has_marker sample_marker (of_str "/home/dev/repo") = true
  ∧ ∃ here, curr_prefix (of_str "/home/dev/repo") (of_str "/home/dev/repo/app")
            = Ok here
            ∧ valid_prefix here = true
            ∧ prefix_to_abs_path (of_str "/home/dev/repo") here
              = Ok (of_str "/home/dev/repo/app").
Proof.
  apply (located_repository_gives_current_prefix (of_str "/home/dev/repo/app")
           sample_marker 2 (of_str "/home/dev/repo")).
  vm_compute. reflexivity.
Defined.

Lemma split_sep_no_sep x : no_sep x = true → split_sep x = [x].
Proof.
  induction x as [|c x IH]; [done|]. cbn [no_sep split_sep].
  intros [Hc Hx]%andb_true_iff. apply negb_true_iff in Hc. rewrite Hc.
  by rewrite (IH Hx).
Qed.

Lemma of_str_component x :
  kept x = true → no_sep x = true → of_str x = mkPath NoRoot [x].
Proof.
  intros Hk Hs. unfold of_str. rewrite split_sep_no_sep by done. f_equal.
  - pose proof (no_sep_relative x Hs) as Hrel. unfold is_absolute in Hrel.
    cbn in Hrel. by destruct (splitroot x).
  - cbn. rewrite decide_True; [done|]. by apply Is_true_true.
Qed.

(** The output location of a target: for a target [t] declared in the
    directory [//dir] of a repository whose paths are normal, the build
    artifact goes to the fixed-name subdirectory [.out] of that
    directory and bears the name of the target. *)
Theorem output_location_layout (repo : PurePath) (dir : list string) (t : string) :
  normal repo = true →
  normal (mkPath SlashSlash (dir ++ [t])) = true →
  prefix_to_abs_out_name repo (mkPath SlashSlash (dir ++ [t]))
  = Ok (mkPath (root repo) (names repo ++ dir ++ [".out"; t])).
Proof.
  intros Hrepo Hp. unfold prefix_to_abs_out_name.
  rewrite prefix_to_abs_path_ok by done. cbn [and_then names].
  unfold name, parent. cbn [names root].
  rewrite (app_assoc (names repo)), last_last, removelast_last.
  unfold normal in Hp. cbn [names] in Hp. rewrite forallb_app in Hp.
  apply andb_true_iff in Hp as [_ Ht]. cbn in Ht.
  rewrite andb_true_r in Ht. apply andb_true_iff in Ht as [Hk Hs].
  rewrite (of_str_component t) by done. rewrite out_dir.
  rewrite !join_relative by done. cbn [root names].
  by rewrite <- !app_assoc.
Qed.

Lemma output_location_layout_witness :
  prefix_to_abs_out_name (of_str "/home/dev/repo") (of_str "//lib/core")
  = Ok (of_str "/home/dev/repo/lib/.out/core").
Proof.
  apply (output_location_layout (of_str "/home/dev/repo") ["lib"] "core");
    reflexivity.
Defined.

(** ** Further properties of the discovery loop *)

Lemma dict_update_keys {V} (other : dict V) : ∀ d,
  keys (dict_update d other) = keys other ∪ keys d.
Proof.
  unfold dict_update.
  induction other as [|[k v] other IH]; intros d; cbn [foldl].
  - unfold keys at 2. cbn. by rewrite union_empty_l_L.
  - rewrite IH, dict_set_keys. unfold keys at 3. cbn [fmap list_fmap list_to_set fst].
    fold (keys other). set_solver.
Qed.

Lemma dict_update_NoDup {V} (other : dict V) : ∀ d,
  NoDup d.*1 → NoDup (dict_update d other).*1.
Proof.
  unfold dict_update.
  induction other as [|[k v] other IH]; intros d Hnd; cbn [foldl]; [done|].
  apply IH. by apply dict_set_NoDup.
Qed.

Lemma dict_set_length_le {V} k (v : V) d : length d ≤ length (dict_set k v d).
Proof. rewrite dict_set_length. destruct (decide _); lia. Qed.

Lemma dict_update_length_le {V} (other : dict V) : ∀ d,
  length d ≤ length (dict_update d other).
Proof.
  unfold dict_update.
  induction other as [|[k v] other IH]; intros d; cbn [foldl]; [done|].
  etrans; [apply (dict_set_length_le k v)|apply IH].
Qed.

(** An update that does not make the dictionary longer brings no new
    key. *)
Lemma dict_update_same_length {V} (other : dict V) : ∀ d,
  length (dict_update d other) = length d →
  keys (dict_update d other) = keys d.
Proof.
  induction other as [|[k v] other IH]; intros d Hlen; [done|].
  change (dict_update d ((k, v) :: other))
    with (dict_update (dict_set k v d) other) in *.
  pose proof (dict_update_length_le other (dict_set k v d)) as Hle.
  pose proof (dict_set_length_le k v d) as Hle'.
  rewrite IH by lia. rewrite dict_set_keys.
  assert (length (dict_set k v d) = length d) as Hsame by lia.
  rewrite dict_set_length in Hsame.
  destruct (decide (k ∈ keys d)) as [Hin|Hout]; [|lia].
  apply (anti_symm (⊆)); [|apply union_subseteq_r].
  intros x [Hx|Hx]%elem_of_union; [|done].
  by apply elem_of_singleton in Hx as ->.
Qed.

Lemma scan_items_seen repo rule_files items : ∀ new_dict loaded seen log r log',
  scan_items repo rule_files items new_dict loaded seen log = (Ok r, log') →
  r.2 = keys items ∪ seen.
Proof.
  induction items as [|[target props] rest IH];
    intros new_dict loaded seen log r log' Hrun.
  - cbn in Hrun. injection Hrun as <- <-. cbn. unfold keys. cbn.
    by rewrite union_empty_l_L.
  - cbn [scan_items] in Hrun.
    apply bind_ok_inv in Hrun as ([nd ld] & log1 & _ & Hrun).
    apply IH in Hrun as ->. unfold keys. cbn [fmap list_fmap list_to_set fst].
    set_solver.
Qed.

Lemma load_prefix_NoDup repo rule_files prefix log loaded log' :
  load_prefix repo rule_files prefix log = (Ok loaded, log') →
  NoDup loaded.*1.
Proof.
  intros Hrun. unfold load_prefix in Hrun.
  apply bind_ok_inv in Hrun as ([] & log1 & _ & Hrun).
  apply bind_ok_inv in Hrun as (rel_path & log2 & _ & Hrun).
  destruct (rule_files _) as [rules|]; [|done].
  rewrite run_ret in Hrun. injection Hrun as <- <-.
  apply load_rules_NoDup. constructor.
Qed.

Lemma discover_invariant repo rule_files : ∀ fuel size st log st' log',
  NoDup (prop_dict st).*1 →
  targets st ⊆ keys (prop_dict st) →
  (size = length (prop_dict st) → targets st = keys (prop_dict st)) →
  discover repo rule_files fuel size st log = (Returned st', log') →
  NoDup (prop_dict st').*1 ∧ targets st' = keys (prop_dict st').
Proof.
  induction fuel as [|n IH]; intros size st log st' log' Hnd Hsub Hall Hrun;
    [done|].
  cbn [discover] in Hrun.
  destruct (decide (size ≠ length (prop_dict st))) as [Hne|Heq].
  - destruct (scan_items _ _ _ _ _ _ _) as [[[[nd ld] sn]|e] log1] eqn:Hscan;
      [|done].
    apply scan_items_seen in Hscan. cbn in Hscan. subst sn.
    apply IH in Hrun; [done| | |]; cbn [prop_dict targets].
    + by apply dict_update_NoDup.
    + rewrite dict_update_keys. set_solver.
    + intros Hlen. symmetry in Hlen. apply dict_update_same_length in Hlen.
      rewrite Hlen. set_solver.
  - injection Hrun as <- <-. split; [done|]. apply Hall.
    by apply dec_stable in Heq.
Qed.

(** When the discovery loop returns, the set [targets] holds exactly
    the keys of [prop_dict], and no two items of [prop_dict] have the
    same key: the scheduler is handed a well-formed dictionary and the
    set of all its targets. *)
Theorem discovery_returns_every_target
    (repo cwd : PurePath) (rule_files : PurePath → option (list (string * RawProps)))
    (fuel : nat) (st0 st : discovery) (log0 log : list event) :
  start repo cwd rule_files [] = (Ok st0, log0) →
  discover repo rule_files fuel 0 st0 log0 = (Returned st, log) →
  NoDup (prop_dict st).*1 ∧ targets st = keys (prop_dict st).
Proof.
  intros Hstart Hrun. unfold start in Hstart.
  apply bind_ok_inv in Hstart as (here & log1 & _ & Hstart).
  apply bind_ok_inv in Hstart as (found & log2 & Hload & Hstart).
  apply bind_ok_inv in Hstart as (here' & log3 & _ & Hstart).
  rewrite run_ret in Hstart. injection Hstart as <- <-.
  apply load_prefix_NoDup in Hload.
  eapply discover_invariant; [| | |exact Hrun]; cbn [prop_dict targets].
  - done.
  - apply empty_subseteq.
  - intros Hlen. destruct found; [done|discriminate].
Qed.

Lemma discovery_returns_every_target_witness :
  NoDup (prop_dict (mkDiscovery sample_app_graph
                      {[of_str "//app"; of_str "//lib"]}
                      (keys sample_app_graph))).*1
  ∧ targets (mkDiscovery sample_app_graph {[of_str "//app"; of_str "//lib"]}
               (keys sample_app_graph))
    = keys (prop_dict (mkDiscovery sample_app_graph
                         {[of_str "//app"; of_str "//lib"]}
                         (keys sample_app_graph))).
Proof.
  refine (discovery_returns_every_target (of_str "/home/dev/repo")
            (of_str "/home/dev/repo/app") sample_rules 3
            (mkDiscovery [(of_str "//app/main",
                           mkProps (Some ["main.cc"]) None (Some true)
                             {[of_str "//lib/core"]})]
               {[of_str "//app"]} ∅)
            _ [Loading (of_str "//app")]
            [Loading (of_str "//app"); Loading (of_str "//lib")] _ _).
  - vm_compute. reflexivity.
  - vm_compute. reflexivity.
Defined.

(** ** What the loader stores for the dependencies *)

Lemma elem_of_canonical_deps prefix dependencies d :
  d ∈ canonical_deps prefix dependencies
  ↔ ∃ s, s ∈ dependencies ∧ d = canonical_dep prefix (of_str s).
Proof.
  unfold canonical_deps. rewrite elem_of_list_to_set, list_elem_of_fmap. split.
  - intros (dep_path & -> & (s & -> & Hs)%list_elem_of_fmap). by exists s.
  - intros (s & Hs & ->). exists (of_str s). split; [done|].
    apply list_elem_of_fmap. by exists s.
Qed.

(** Every record of a loaded file comes from one of its rules and
    holds the canonical dependencies of that rule. *)
Lemma load_rules_records prefix rules : ∀ prop_dict k record,
  (k, record) ∈ foldl (load_rule prefix) prop_dict rules →
  (k, record) ∈ prop_dict
  ∨ ∃ name raw,
      (name, raw) ∈ rules ∧ k = prefix </> of_str name
      ∧ deps record = canonical_deps prefix (default [] (yaml_deps raw)).
Proof.
  induction rules as [|[name raw] rules IH]; intros prop_dict k record Hin.
  - by left.
  - cbn [foldl] in Hin. apply IH in Hin as [Hin|(n & r & Hnr & Hk & Hd)].
    + unfold load_rule in Hin. apply elem_of_dict_set in Hin as [Hin|Hin].
      * right. exists name, raw. injection Hin as -> ->.
        split; [by left|]. split; [done|]. cbn [deps]. by destruct (yaml_deps raw).
      * by left.
    + right. exists n, r. split; [by right|done].
Qed.

(** C9. What [load_prefix] stores is canonical, and canonical for good.
    Every declared target gets a record; every record comes from a rule
    of the file, and its dependency set holds, for each reference of
    that rule, the reference itself when it already carries a root and
    the reference put under the prefix of the loading directory when it
    is bare, and nothing else; every stored dependency carries a root,
    and canonicalizing the stored dependencies again, under any
    directory, gives the same set. *)
Theorem canonicalization_idempotent
    (repo : PurePath) (rule_files : PurePath → option (list (string * RawProps)))
    (prefix other : PurePath) (log log' : list event) (loaded : dict Props) :
  load_prefix repo rule_files prefix log = (Ok loaded, log') →
  ∃ rules,
    rule_files (repo </> mkPath NoRoot (names prefix) </> of_str FILENAME)
    = Some rules
    ∧ (∀ name raw, (name, raw) ∈ rules → prefix </> of_str name ∈ keys loaded)
    ∧ ∀ k record,
        (k, record) ∈ loaded →
        ∃ name raw,
          (name, raw) ∈ rules ∧ k = prefix </> of_str name
          ∧ (∀ s, s ∈ default [] (yaml_deps raw) →
               (is_absolute (of_str s) = true → of_str s ∈ deps record)
               ∧ (is_absolute (of_str s) = false →
                  mkPath (root prefix) (names prefix ++ names (of_str s))
                  ∈ deps record))
          ∧ (∀ d, d ∈ deps record →
               (∃ s, s ∈ default [] (yaml_deps raw)
                     ∧ ((is_absolute (of_str s) = true ∧ d = of_str s)
                        ∨ (is_absolute (of_str s) = false
                           ∧ d = mkPath (root prefix)
                                   (names prefix ++ names (of_str s)))))
               ∧ is_absolute d = true
               ∧ canonical_dep other d = d)
          ∧ list_to_set (canonical_dep other <$> elements (deps record))
            = deps record.
Proof.
  intros Hrun. unfold load_prefix in Hrun.
  apply bind_ok_inv in Hrun as ([] & log1 & _ & Hrun).
  apply bind_ok_inv in Hrun as (rel_path & log2 & Hrel & Hrun).
  apply lift_ok_inv in Hrel as [Hrel ->].
  assert (valid_prefix prefix = true) as Hvalid.
  { destruct (valid_prefix prefix) eqn:Hp; [done|].
    rewrite prefix_to_rel_path_invalid in Hrel; done. }
  assert (is_absolute prefix = true) as Habs.
  { apply valid_prefix_root in Hvalid. unfold is_absolute. by rewrite Hvalid. }
  rewrite prefix_to_rel_path_valid in Hrel by done. injection Hrel as <-.
  destruct (rule_files _) as [rules|]; [|done].
  rewrite run_ret in Hrun. injection Hrun as <- <-.
  exists rules. split; [done|]. split.
  - intros name raw Hin. rewrite load_rules_keys.
    apply elem_of_union. left. apply elem_of_list_to_set.
    apply list_elem_of_fmap. by exists (name, raw).
  - intros k record Hin.
    apply load_rules_records in Hin as [Hin|(name & raw & Hin & -> & Hdeps)];
      [by apply elem_of_nil in Hin|].
    exists name, raw. split; [done|]. split; [done|].
    assert (∀ d, d ∈ deps record → is_absolute d = true) as Hall.
    { intros d Hd. rewrite Hdeps in Hd.
      apply elem_of_canonical_deps in Hd as (s & _ & ->).
      by apply canonical_dep_absolute. }
    split; [|split].
    + intros s Hs.
      destruct (canonical_dep_cases prefix other (of_str s)) as (Hq & Hb & _).
      split; intros Hcase; rewrite Hdeps; apply elem_of_canonical_deps;
        exists s; (split; [done|]); symmetry; [by apply Hq|by apply Hb].
    + intros d Hd. split; [|split; [by apply Hall|]].
      * rewrite Hdeps in Hd. apply elem_of_canonical_deps in Hd as (s & Hs & ->).
        exists s. split; [done|].
        destruct (canonical_dep_cases prefix other (of_str s)) as (Hq & Hb & _).
        destruct (is_absolute (of_str s)) eqn:Hcase.
        -- left. split; [done|by apply Hq].
        -- right. split; [done|by apply Hb].
      * unfold canonical_dep. by rewrite (Hall d Hd).
    + apply set_eq. intros d.
      rewrite elem_of_list_to_set, list_elem_of_fmap. split.
      * intros (d' & -> & Hd'%elem_of_elements).
        unfold canonical_dep. by rewrite (Hall d' Hd').
      * intros Hd. exists d. split; [|by apply elem_of_elements].
        unfold canonical_dep. by rewrite (Hall d Hd).
Qed.

Lemma canonicalization_idempotent_witness :
  ∃ rules,
    sample_two_deps_rules
      (of_str "/home/dev/repo" </> mkPath NoRoot (names (of_str "//app"))
       </> of_str FILENAME)
    = Some rules
    ∧ (∀ name raw, (name, raw) ∈ rules →
         of_str "//app" </> of_str name
         ∈ keys [(of_str "//app/main",
                  mkProps (Some ["main.cc"]) None (Some true)
                    {[of_str "//lib/core"; of_str "//app/util"]})])
    ∧ ∀ k record,
        (k, record)
        ∈ [(of_str "//app/main",
            mkProps (Some ["main.cc"]) None (Some true)
              {[of_str "//lib/core"; of_str "//app/util"]})] →
        ∃ name raw,
          (name, raw) ∈ rules ∧ k = of_str "//app" </> of_str name
          ∧ (∀ s, s ∈ default [] (yaml_deps raw) →
               (is_absolute (of_str s) = true → of_str s ∈ deps record)
               ∧ (is_absolute (of_str s) = false →
                  mkPath (root (of_str "//app"))
                    (names (of_str "//app") ++ names (of_str s))
                  ∈ deps record))
          ∧ (∀ d, d ∈ deps record →
               (∃ s, s ∈ default [] (yaml_deps raw)
                     ∧ ((is_absolute (of_str s) = true ∧ d = of_str s)
                        ∨ (is_absolute (of_str s) = false
                           ∧ d = mkPath (root (of_str "//app"))
                                   (names (of_str "//app") ++ names (of_str s)))))
               ∧ is_absolute d = true
               ∧ canonical_dep (of_str "//lib") d = d)
          ∧ list_to_set (canonical_dep (of_str "//lib") <$> elements (deps record))
            = deps record.
Proof.
  refine (canonicalization_idempotent (of_str "/home/dev/repo")
            sample_two_deps_rules (of_str "//app") (of_str "//lib") []
            [Loading (of_str "//app")]
            [(of_str "//app/main",
              mkProps (Some ["main.cc"]) None (Some true)
                {[of_str "//lib/core"; of_str "//app/util"]})] _).
  vm_compute. reflexivity.
Defined.

(** ** A source the driver cannot name *)

(** C1, counterexample to the claim as stated: the graph whose only
    target has no dependency and lists the bare root [/] among its
    sources is held in a dictionary, acyclic and fully defined, yet the
    loop does not complete it: [do_cpp] raises [ValueError] on the
    source without a name, and the exception ends the run whatever the
    number of passes allowed. *)
Lemma unnamed_source_aborts_the_schedule :
  NoDup sample_root_source_graph.*1
  ∧ acyclic sample_root_source_graph
  ∧ deps_defined sample_root_source_graph
  ∧ ∀ fuel,
      (schedule (of_str "/home/dev/repo") toolchain_ok (S fuel)
         sample_root_source_graph (keys sample_root_source_graph) ∅ []).1
      = Raised ValueError.
Proof.
  assert (∀ target dep, ¬ depends sample_root_source_graph target dep) as Hnone.
  { intros target dep (props & Hin & Hdep).
    apply list_elem_of_singleton in Hin. injection Hin as -> ->.
    cbn [deps] in Hdep. by apply elem_of_empty in Hdep. }
  split; [apply (bool_decide_unpack _); vm_compute; exact I|].
  split; [|split].
  - apply (acyclic_by_rank _ (λ _, 0)). intros target dep Hd.
    by destruct (Hnone target dep).
  - intros target dep Hd. by destruct (Hnone target dep).
  - intros fuel. cbn [schedule].
    rewrite decide_True by (apply (bool_decide_unpack _); vm_compute; exact I).
    assert ((sched_pass (of_str "/home/dev/repo") toolchain_ok
               sample_root_source_graph ∅ []).1 = Raise ValueError) as Hpass
      by (vm_compute; reflexivity).
    destruct (sched_pass _ _ _ _ _) as [[d|e] log1]; cbn in Hpass; [done|].
    by injection Hpass as ->.
Qed.

(** ** Rule files are read once *)

Lemma loadings_app l1 l2 : loadings (l1 ++ l2) = loadings l1 ++ loadings l2.
Proof. apply omap_app. Qed.

Lemma load_prefix_log repo rule_files prefix log :
  (load_prefix repo rule_files prefix log).2 = log ++ [Loading prefix].
Proof.
  unfold load_prefix. rewrite run_bind, run_emit, run_bind.
  destruct (prefix_to_rel_path prefix) as [rel|e]; [|done].
  rewrite run_lift_ok. by destruct (rule_files _).
Qed.

(** The loop over the dependencies of one target loads only
    directories that are not loaded yet, and keeps [loaded_prefixes]
    equal to the set of the directories loaded so far. *)
Lemma scan_deps_loadings repo rule_files dependencies :
  ∀ new_dict loaded log,
  loaded = list_to_set (loadings log) → NoDup (loadings log) →
  NoDup (loadings (scan_deps repo rule_files dependencies new_dict loaded log).2)
  ∧ ∀ r, (scan_deps repo rule_files dependencies new_dict loaded log).1 = Ok r →
         r.2 = list_to_set
                 (loadings (scan_deps repo rule_files dependencies new_dict
                              loaded log).2).
Proof.
  induction dependencies as [|dep rest IH]; intros new_dict loaded log Hset Hnd.
  - cbn. split; [done|]. by intros r [= <-].
  - cbn [scan_deps]. destruct (decide (parent dep ∉ loaded)) as [Hnew|Hold];
      [|by apply IH].
    rewrite run_bind.
    pose proof (load_prefix_log repo rule_files (parent dep) log) as Hlog.
    destruct (load_prefix repo rule_files (parent dep) log) as [[found|e] log1];
      cbn in Hlog; subst log1.
    + apply IH.
      * rewrite loadings_app, list_to_set_app_L. cbn. rewrite Hset. set_solver.
      * rewrite loadings_app. cbn. apply NoDup_app. split; [done|].
        split; [|apply NoDup_singleton].
        intros x Hx ->%list_elem_of_singleton. apply Hnew. rewrite Hset.
        by apply elem_of_list_to_set.
    + cbn. split; [|done]. rewrite loadings_app. cbn.
      apply NoDup_app. split; [done|]. split; [|apply NoDup_singleton].
      intros x Hx ->%list_elem_of_singleton. apply Hnew. rewrite Hset.
      by apply elem_of_list_to_set.
Qed.

Lemma scan_items_loadings repo rule_files items :
  ∀ new_dict loaded seen log,
  loaded = list_to_set (loadings log) → NoDup (loadings log) →
  NoDup (loadings (scan_items repo rule_files items new_dict loaded seen log).2)
  ∧ ∀ r, (scan_items repo rule_files items new_dict loaded seen log).1 = Ok r →
         r.1.2 = list_to_set
                   (loadings (scan_items repo rule_files items new_dict
                                loaded seen log).2).
Proof.
  induction items as [|[target props] rest IH];
    intros new_dict loaded seen log Hset Hnd.
  - cbn. split; [done|]. by intros r [= <-].
  - cbn [scan_items]. rewrite run_bind.
    destruct (scan_deps_loadings repo rule_files (elements (deps props))
                new_dict loaded log Hset Hnd) as [Hnd1 Hset1].
    destruct (scan_deps repo rule_files (elements (deps props)) new_dict
                loaded log) as [[[nd ld]|e] log1]; [|done].
    apply IH; [|done]. by apply (Hset1 (nd, ld)).
Qed.

Lemma discover_loadings repo rule_files : ∀ fuel size st log,
  loaded_prefixes st = list_to_set (loadings log) → NoDup (loadings log) →
  NoDup (loadings (discover repo rule_files fuel size st log).2).
Proof.
  induction fuel as [|n IH]; intros size st log Hset Hnd; [done|].
  cbn [discover]. destruct (decide _); [|done].
  destruct (scan_items_loadings repo rule_files (prop_dict st) []
              (loaded_prefixes st) (targets st) log Hset Hnd) as [Hnd1 Hset1].
  destruct (scan_items _ _ _ _ _ _ _) as [[[[nd ld] sn]|e] log1]; [|done].
  apply IH; [|done]. by apply (Hset1 (nd, ld, sn)).
Qed.

Lemma start_loadings repo cwd rule_files :
  NoDup (loadings (start repo cwd rule_files []).2)
  ∧ ∀ st0, (start repo cwd rule_files []).1 = Ok st0 →
           loaded_prefixes st0
           = list_to_set (loadings (start repo cwd rule_files []).2).
Proof.
  unfold start. rewrite run_bind.
  destruct (curr_prefix repo cwd) as [here|e]; [|by split; [constructor|]].
  rewrite run_lift_ok, run_bind.
  pose proof (load_prefix_log repo rule_files here []) as Hlog.
  destruct (load_prefix repo rule_files here []) as [[found|e] log1];
    cbn in Hlog; subst log1.
  - rewrite run_bind, run_lift_ok, run_ret. cbn.
    split; [apply NoDup_singleton|]. intros st0 [= <-]. cbn. set_solver.
  - cbn. split; [apply NoDup_singleton|done].
Qed.

(** The scheduler loads nothing. *)
Lemma schedule_loads_nothing repo toolchain graph universe :
  ∀ fuel done_targets log,
  ∃ ext,
    (schedule repo toolchain fuel graph universe done_targets log).2 = log ++ ext
    ∧ loadings ext = [].
Proof.
  assert (∀ name props log,
            ∃ ext, (do_cpp repo toolchain name props log).2 = log ++ ext
                   ∧ loadings ext = []) as Hdriver.
  { intros name props log.
    unfold do_cpp. rewrite run_bind.
    destruct (prefix_to_abs_path repo name) as [abs_path|e];
      [|exists []; by rewrite app_nil_r].
    rewrite run_lift_ok, run_bind, run_emit, run_bind.
    assert (∀ sources rule_dir target_out objects l,
              ∃ ext, (compile_srcs repo toolchain rule_dir target_out sources
                        objects l).2 = l ++ ext ∧ loadings ext = []) as Hcompile.
    { induction sources as [|src rest IH]; intros rule_dir target_out objects l;
        cbn [compile_srcs].
      - exists []. by rewrite app_nil_r.
      - rewrite run_bind. destruct (with_suffix _ _) as [dot_o|e];
          [|exists []; by rewrite app_nil_r].
        rewrite run_lift_ok, run_bind, run_cmd_run.
        destruct (IH rule_dir target_out (objects ++ [str dot_o])
                    (l ++ [Echo (String.concat " "
                                   [CC; OPT; STD; INCLUDE repo; "-c";
                                    str (rule_dir </> of_str src); "-o"; str dot_o]);
                           Spawn [CC; OPT; STD; INCLUDE repo; "-c";
                                  str (rule_dir </> of_str src); "-o"; str dot_o]
                             (toolchain
                                (l ++ [Echo (String.concat " "
                                               [CC; OPT; STD; INCLUDE repo; "-c";
                                                str (rule_dir </> of_str src);
                                                "-o"; str dot_o])])
                                [CC; OPT; STD; INCLUDE repo; "-c";
                                 str (rule_dir </> of_str src); "-o"; str dot_o])]))
          as (ext & Hext & Hq).
        eexists. rewrite Hext, <- app_assoc. split; [done|].
        by rewrite loadings_app, Hq. }
    destruct (Hcompile (default [] (srcs props)) (parent abs_path)
                (parent abs_path </> of_str OUTDIR) []
                (log ++ [Mkdir (parent abs_path </> of_str OUTDIR)]))
      as (ext1 & Hext1 & Hq1).
    destruct (compile_srcs _ _ _ _ _ _ _) as [[objects|e] log1];
      cbn in Hext1; subst log1.
    2: { eexists. rewrite <- app_assoc. split; [done|].
         by rewrite loadings_app, Hq1. }
    rewrite run_bind.
    destruct (dep_archives _ _ _) as [all|e].
    2: { eexists. rewrite run_lift_raise, <- app_assoc. split; [done|].
         by rewrite loadings_app, Hq1. }
    rewrite run_lift_ok, run_bind.
    destruct (prefix_to_abs_out_name repo name) as [out_name|e].
    2: { eexists. rewrite run_lift_raise, <- app_assoc. split; [done|].
         by rewrite loadings_app, Hq1. }
    rewrite run_lift_ok.
    destruct (default false (main props)).
    - rewrite run_cmd_run. eexists. rewrite <- !app_assoc. split; [done|].
      by rewrite !loadings_app, Hq1.
    - rewrite run_bind. destruct (with_suffix out_name ".a") as [dot_a|e].
      + rewrite run_lift_ok, run_cmd_run. eexists. rewrite <- !app_assoc.
        split; [done|]. by rewrite !loadings_app, Hq1.
      + eexists. rewrite run_lift_raise, <- app_assoc. split; [done|].
        by rewrite loadings_app, Hq1. }
  assert (∀ items done_targets log,
            ∃ ext, (sched_pass repo toolchain items done_targets log).2
                   = log ++ ext ∧ loadings ext = []) as Hpass.
  { induction items as [|[target props] rest IH]; intros done_targets log;
      cbn [sched_pass].
    - exists []. by rewrite app_nil_r.
    - destruct (ready done_targets target props); [|apply IH].
      rewrite run_bind, run_emit, run_bind.
      destruct (Hdriver target props (log ++ [Doing target]))
        as (ext1 & Hext1 & Hq1).
      destruct (do_cpp _ _ _ _ _) as [[[]|e] log1]; cbn in Hext1; subst log1.
      + destruct (IH ({[target]} ∪ done_targets) ((log ++ [Doing target]) ++ ext1))
          as (ext2 & Hext2 & Hq2).
        eexists. rewrite Hext2, <- !app_assoc. split; [done|].
        by rewrite !loadings_app, Hq1, Hq2.
      + eexists. rewrite <- !app_assoc. split; [done|].
        by rewrite !loadings_app, Hq1. }
  induction fuel as [|n IH]; intros done_targets log; cbn [schedule].
  - exists []. by rewrite app_nil_r.
  - destruct (decide _); [|exists []; by rewrite app_nil_r].
    destruct (Hpass graph done_targets log) as (ext1 & Hext1 & Hq1).
    destruct (sched_pass _ _ _ _ _) as [[d|e] log1]; cbn in Hext1; subst log1.
    + destruct (IH d (log ++ ext1)) as (ext2 & Hext2 & Hq2).
      eexists. rewrite Hext2, <- app_assoc. split; [done|].
      by rewrite loadings_app, Hq1, Hq2.
    + by exists ext1.
Qed.


(** ** A missing rule file ends the run before anything is built *)

Lemma only_value_error_ret {A} (a : A) : only_value_error (mret a : M A).
Proof. intros log e. done. Qed.

Lemma only_value_error_lift {A} (r : result A) :
  (∀ e, r = Raise e → e = ValueError) → only_value_error (lift r).
Proof. intros Hr log e. destruct r; [done|]. cbn. intros [= <-]. by apply Hr. Qed.

Lemma only_value_error_bind {A B} (m : M A) (k : A → M B) :
  only_value_error m → (∀ a, only_value_error (k a)) →
  only_value_error (m ≫= k).
Proof.
  intros Hm Hk log e. rewrite run_bind. specialize (Hm log).
  destruct (m log) as [[a|e'] log1]; [apply Hk|].
  cbn in *. intros [= <-]. by apply Hm.
Qed.

Lemma only_value_error_cmd_run toolchain command :
  only_value_error (cmd_run toolchain command).
Proof. intros log e. by rewrite run_cmd_run. Qed.

Lemma with_suffix_raises p sfx e : with_suffix p sfx = Raise e → e = ValueError.
Proof. unfold with_suffix. destruct (String.eqb _ _); [by intros [= <-]|done]. Qed.

Lemma prefix_to_abs_path_raises repo p e :
  prefix_to_abs_path repo p = Raise e → e = ValueError.
Proof.
  unfold prefix_to_abs_path, prefix_to_rel_path, relative_to.
  destruct (bool_decide _); [done|]. by intros [= <-].
Qed.

Lemma prefix_to_abs_out_name_raises repo p e :
  prefix_to_abs_out_name repo p = Raise e → e = ValueError.
Proof.
  unfold prefix_to_abs_out_name.
  destruct (prefix_to_abs_path repo p) as [abs_path|e'] eqn:Habs; [done|].
  cbn. intros [= <-]. by eapply prefix_to_abs_path_raises.
Qed.

Lemma dep_archives_raises repo dependencies : ∀ objects e,
  dep_archives repo dependencies objects = Raise e → e = ValueError.
Proof.
  induction dependencies as [|dep rest IH]; intros objects e; [done|].
  cbn [dep_archives].
  destruct (prefix_to_abs_out_name repo dep) as [out|e'] eqn:Hout.
  - cbn [and_then]. destruct (with_suffix out ".a") as [dot_a|e''] eqn:Hdot.
    + cbn [and_then]. apply IH.
    + cbn. intros [= <-]. by eapply with_suffix_raises.
  - cbn. intros [= <-]. by eapply prefix_to_abs_out_name_raises.
Qed.

Lemma only_value_error_compile_srcs repo toolchain rule_dir target_out sources :
  ∀ objects,
  only_value_error
    (compile_srcs repo toolchain rule_dir target_out sources objects).
Proof.
  induction sources as [|src rest IH]; intros objects; cbn [compile_srcs].
  - apply only_value_error_ret.
  - apply only_value_error_bind.
    + apply only_value_error_lift. intros e. apply with_suffix_raises.
    + intros dot_o. apply only_value_error_bind;
        [apply only_value_error_cmd_run|]. intros _. apply IH.
Qed.

(** [do_cpp] raises nothing but the [ValueError] of a path function. *)
Lemma only_value_error_do_cpp repo toolchain name props :
  only_value_error (do_cpp repo toolchain name props).
Proof.
  unfold do_cpp. apply only_value_error_bind.
  { apply only_value_error_lift. intros e. apply prefix_to_abs_path_raises. }
  intros abs_path. apply only_value_error_bind; [by intros log e|]. intros _.
  apply only_value_error_bind; [apply only_value_error_compile_srcs|].
  intros objects. apply only_value_error_bind.
  { apply only_value_error_lift. intros e. apply dep_archives_raises. }
  intros all. apply only_value_error_bind.
  { apply only_value_error_lift. intros e. apply prefix_to_abs_out_name_raises. }
  intros out_name. destruct (default false (main props));
    [apply only_value_error_cmd_run|].
  apply only_value_error_bind; [|intros dot_a; apply only_value_error_cmd_run].
  apply only_value_error_lift. intros e. apply with_suffix_raises.
Qed.

Lemma only_value_error_sched_pass repo toolchain items : ∀ done_targets,
  only_value_error (sched_pass repo toolchain items done_targets).
Proof.
  induction items as [|[target props] rest IH]; intros done_targets;
    cbn [sched_pass].
  - apply only_value_error_ret.
  - destruct (ready done_targets target props); [|apply IH].
    apply only_value_error_bind; [by intros log e|]. intros _.
    apply only_value_error_bind; [apply only_value_error_do_cpp|].
    intros _. apply IH.
Qed.

Lemma schedule_raises_only_value_error repo toolchain graph universe :
  ∀ fuel done_targets log e,
  (schedule repo toolchain fuel graph universe done_targets log).1 = Raised e →
  e = ValueError.
Proof.
  induction fuel as [|n IH]; intros done_targets log e; [done|].
  cbn [schedule]. destruct (decide _); [|done].
  pose proof (only_value_error_sched_pass repo toolchain graph done_targets log)
    as Hpass.
  destruct (sched_pass _ _ _ _ _) as [[d|e'] log1]; [apply IH|].
  cbn. intros [= <-]. by apply Hpass.
Qed.

Lemma only_loading_snoc log prefix :
  only_loading log → only_loading (log ++ [Loading prefix]).
Proof.
  intros Hlog. apply Forall_app. split; [done|].
  constructor; [by eexists|constructor].
Qed.

Lemma scan_deps_only_loading repo rule_files dependencies :
  ∀ new_dict loaded log,
  only_loading log →
  only_loading (scan_deps repo rule_files dependencies new_dict loaded log).2.
Proof.
  induction dependencies as [|dep rest IH]; intros new_dict loaded log Hlog;
    [done|].
  cbn [scan_deps]. destruct (decide _); [|by apply IH]. rewrite run_bind.
  pose proof (load_prefix_log repo rule_files (parent dep) log) as Hext.
  destruct (load_prefix repo rule_files (parent dep) log) as [[found|e] log1];
    cbn in Hext; subst log1.
  - apply IH. by apply only_loading_snoc.
  - by apply only_loading_snoc.
Qed.

Lemma scan_items_only_loading repo rule_files items :
  ∀ new_dict loaded seen log,
  only_loading log →
  only_loading (scan_items repo rule_files items new_dict loaded seen log).2.
Proof.
  induction items as [|[target props] rest IH];
    intros new_dict loaded seen log Hlog; [done|].
  cbn [scan_items]. rewrite run_bind.
  pose proof (scan_deps_only_loading repo rule_files (elements (deps props))
                new_dict loaded log Hlog) as Hlog1.
  destruct (scan_deps _ _ _ _ _ _) as [[[nd ld]|e] log1]; [|done].
  by apply IH.
Qed.

Lemma discover_only_loading repo rule_files : ∀ fuel size st log,
  only_loading log →
  only_loading (discover repo rule_files fuel size st log).2.
Proof.
  induction fuel as [|n IH]; intros size st log Hlog; [done|].
  cbn [discover]. destruct (decide _); [|done].
  pose proof (scan_items_only_loading repo rule_files (prop_dict st) []
                (loaded_prefixes st) (targets st) log Hlog) as Hlog1.
  destruct (scan_items _ _ _ _ _ _ _) as [[[[nd ld] sn]|e] log1]; [|done].
  by apply IH.
Qed.

Lemma start_only_loading repo cwd rule_files :
  only_loading (start repo cwd rule_files []).2.
Proof.
  unfold start. rewrite run_bind.
  destruct (curr_prefix repo cwd) as [here|e]; [|constructor].
  rewrite run_lift_ok, run_bind.
  pose proof (load_prefix_log repo rule_files here []) as Hext.
  destruct (load_prefix repo rule_files here []) as [[found|e] log1];
    cbn in Hext; subst log1.
  - rewrite run_bind, run_lift_ok, run_ret. cbn.
    constructor; [by eexists|constructor].
  - cbn. constructor; [by eexists|constructor].
Qed.



(** ** A rule file without targets *)


